(** * akaoio/dashboard: storage adapters and the Workrooms engine

    A shallow embedding of the persistence layer (the adapter registry, the
    snapshot adapter [LocalAdapter], the subscription bookkeeping of
    [BaseMemoryAdapter], [ComposerAdapter], [LocalAdapter] and [AirAdapter])
    and of the collaboration engine [WorkroomsService], followed by the
    properties proved of them.

    Conventions of the embedding.
    - A JavaScript [Map] is an insertion-ordered association list ([JsMap]):
      iteration order is observable in the source ([pathToObject],
      [getUserRooms], [healthCheck]).
    - A plain object used as a dictionary ([Record<string, T>]) is a finite
      map; property names are ordinary names (not [__proto__] and the like).
      The object that [pathToObject] builds is walked with [in] and
      assignment and then enumerated, so there the names inherited from
      [Object.prototype] and the order of the properties (array indices
      first, in ascending order) are modelled ([JsObject]).
    - JSON-representable values are the inductive type [json]; numbers are
      integers, and the fields of a [JObj] are listed in the order in which
      the object enumerates them. [JSON.parse] after [JSON.stringify] is the
      identity on them, so a JSON file is modelled by the document it
      holds.
    - [Date.now()] and [uuid()] read an oracle indexed by the number of calls
      made so far; the engine state counts the calls.
    - An [async] method runs to completion, except where a definition
      says otherwise ([save_begin] and [save_end] are the two halves of
      [LocalAdapter.save], before and after its awaits). A thrown error (a
      rejected promise) is the [Thrown] outcome, and the state reached
      before the throw is kept, as in the source. *)

From Stdlib Require Import ZArith String Ascii List Bool Lia Sorted Permutation.
From stdpp Require Import base decidable option list strings pretty gmap.
Import ListNotations.

Local Open Scope Z_scope.
Local Open Scope string_scope.
Local Open Scope list_scope.

Set Warnings "-register-all,-clear-no-such-hyp".

(** ** JavaScript [Map<string, V>] *)

Module JsMap.

Section Ops.
Context {V : Type}.

Definition t : Type := list (string * V).

Definition empty : t := [].

(** [Map.prototype.get]; [None] is [undefined]. *)
Fixpoint get (k : string) (m : t) : option V :=
  match m with
  | [] => None
  | (k', v) :: m' => if decide (k' = k) then Some v else get k m'
  end.

(** [Map.prototype.has] *)
Definition has (k : string) (m : t) : bool :=
  match get k m with Some _ => true | None => false end.

(** [Map.prototype.set]: an existing key keeps its position. *)
Fixpoint set (k : string) (v : V) (m : t) : t :=
  match m with
  | [] => [(k, v)]
  | (k', v') :: m' =>
      if decide (k' = k) then (k, v) :: m' else (k', v') :: set k v m'
  end.

(** [Map.prototype.delete] *)
Fixpoint delete (k : string) (m : t) : t :=
  match m with
  | [] => []
  | (k', v') :: m' =>
      if decide (k' = k) then delete k m' else (k', v') :: delete k m'
  end.

(** [Array.from(map.keys())] and [Array.from(map.values())] *)
Definition keys (m : t) : list string := map fst m.
Definition values (m : t) : list V := map snd m.

Definition size (m : t) : nat := length m.

End Ops.

Arguments t : clear implicits.

End JsMap.

(** ** JavaScript objects used as dictionaries *)

Module JsObject.

(** The properties of [Object.prototype]: [name in obj] is true of them for
    every plain object, also one that does not own them. *)
Definition Object_prototype : list string :=
  ["constructor"; "__proto__"; "__defineGetter__"; "__defineSetter__";
   "__lookupGetter__"; "__lookupSetter__"; "hasOwnProperty"; "isPrototypeOf";
   "propertyIsEnumerable"; "toLocaleString"; "toString"; "valueOf"].

Definition inherited (name : string) : bool :=
  bool_decide (name ∈ Object_prototype).

Definition digit (c : ascii) : option N :=
  let n := N_of_ascii c in
  if ((48 <=? n) && (n <=? 57))%N then Some (n - 48)%N else None.

Fixpoint numeral (s : string) (acc : N) : option N :=
  match s with
  | EmptyString => Some acc
  | String c s' =>
      match digit c with
      | Some d => numeral s' (10 * acc + d)%N
      | None => None
      end
  end.

(** A property name that is an array index: the decimal numeral, without
    leading zeros, of an integer below [2^32 - 1]. *)
Definition array_index (name : string) : option N :=
  match name with
  | EmptyString => None
  | String "0" EmptyString => Some 0%N
  | String "0" _ => None
  | _ =>
      match numeral name 0 with
      | Some n => if (n <? 4294967295)%N then Some n else None
      | None => None
      end
  end.

Section Ops.
Context {V : Type}.

(** The own properties of an object, in the order in which [for ... in],
    [Object.keys] and [JSON.stringify] enumerate them: array indices in
    ascending order, then the other names in the order of their creation. *)
Definition t : Type := list (string * V).

(** The place of a new array index [n]: before the first property that is
    not a smaller index. *)
Fixpoint insert_index (n : N) (k : string) (v : V) (o : t) : t :=
  match o with
  | [] => [(k, v)]
  | (k', v') :: o' =>
      match array_index k' with
      | Some n' =>
          if (n' <? n)%N then (k', v') :: insert_index n k v o'
          else (k, v) :: o
      | None => (k, v) :: o
      end
  end.

(** [obj[k] = v] on an object whose [k], if it has one, is an own data
    property: an existing property keeps its place. *)
Definition set (k : string) (v : V) (o : t) : t :=
  match array_index k, JsMap.get k o with
  | Some n, None => insert_index n k v o
  | _, _ => JsMap.set k v o
  end.

End Ops.

Arguments t : clear implicits.

End JsObject.

(** ** JSON values *)

Inductive json : Type :=
| JNull
| JBool (b : bool)
| JNum (n : Z)
| JStr (s : string)
| JArr (items : list json)
| JObj (fields : list (string * json)).

(** [typeof v === 'object' && v !== null && !Array.isArray(v)] *)
Definition is_plain_object (v : json) : bool :=
  match v with JObj _ => true | _ => false end.

(** [String.prototype.split('/')]: never the empty list. *)
Fixpoint split_slash (s : string) : list string :=
  match s with
  | EmptyString => [""]
  | String c s' =>
      if Ascii.eqb c "/"%char then "" :: split_slash s'
      else match split_slash s' with
           | [] => [String c ""]
           | h :: rest => String c h :: rest
           end
  end.

(** [String.prototype.startsWith]: [starts_with k p] is [k.startsWith(p)]. *)
Definition starts_with (k p : string) : bool := String.prefix p k.

(** ** The snapshot adapter (LocalAdapter) *)

Module LocalAdapter.

(** The object under construction in [pathToObject]: a [Dir] is an object the
    function created itself ([current[parts[i]] = {}]), a [Leaf] is a value
    taken from the map. *)
Inductive tree : Type :=
| Leaf (v : json)
| Dir (children : list (string * tree)).

(** What [JSON.stringify] writes for the object built by [pathToObject]. *)
Fixpoint tree_to_json (t : tree) : json :=
  match t with
  | Leaf v => v
  | Dir children =>
      JObj ((fix go (cs : list (string * tree)) : list (string * json) :=
               match cs with
               | [] => []
               | (k, c) :: cs' => (k, tree_to_json c) :: go cs'
               end) children)
  end.

(** Outcome of building the nested object. [TypeError]: the walk reached a
    primitive stored under a prefix of the path, where [in] (or the
    assignment, in a module's strict mode) throws. [MutatesStored]: the walk
    reached an object or array that is itself a stored value; the source
    then writes into that shared value, which this embedding does not
    follow. [Inherited]: the walk met a name that the object inherits from
    [Object.prototype] and does not own; the source then walks on into an
    object of the runtime ([constructor], [toString], ...) or replaces the
    prototype of the object ([__proto__]), which this embedding does not
    follow either. *)
Inductive build (A : Type) : Type :=
| Built (a : A)
| TypeError
| MutatesStored
| Inherited.
Arguments Built {A} a.
Arguments TypeError {A}.
Arguments MutatesStored {A}.
Arguments Inherited {A}.

Definition stored_walk {A : Type} (v : json) : build A :=
  match v with
  | JObj _ | JArr _ => MutatesStored
  | _ => TypeError
  end.

(** [current.__proto__ = value] on an object the walk created: the setter
    of [Object.prototype] ignores a value that is neither an object nor
    [null], and replaces the prototype of [current] otherwise. No own
    property is created. *)
Definition proto_setter (value : json) (current : tree) : build tree :=
  match value with
  | JBool _ | JNum _ | JStr _ => Built current
  | JNull | JArr _ | JObj _ => Inherited
  end.

(** One iteration of the outer loop of [pathToObject], for the path split
    into [parts], started at [current]. [parts[i] in current] is true of an
    own property and of an inherited name; only when it is false is the
    object [{}] created. *)
Fixpoint assign (parts : list string) (value : json) (current : tree)
  : build tree :=
  match parts with
  | [] => Built current
  | [last] =>
      match current with
      | Dir children =>
          if decide (last = "__proto__") then proto_setter value current
          else Built (Dir (JsObject.set last (Leaf value) children))
      | Leaf v => stored_walk v
      end
  | part :: rest =>
      match current with
      | Dir children =>
          let child :=
            match JsMap.get part children with
            | Some c => Some c
            | None => if JsObject.inherited part then None else Some (Dir [])
            end in
          match child with
          | Some child =>
              match assign rest value child with
              | Built child' =>
                  Built (Dir (JsObject.set part child' children))
              | TypeError => TypeError
              | MutatesStored => MutatesStored
              | Inherited => Inherited
              end
          | None => Inherited
          end
      | Leaf v => stored_walk v
      end
  end.

Fixpoint pathToObject_loop (entries : list (string * json)) (result : tree)
  : build tree :=
  match entries with
  | [] => Built result
  | (path, value) :: entries' =>
      match assign (split_slash path) value result with
      | Built result' => pathToObject_loop entries' result'
      | TypeError => TypeError
      | MutatesStored => MutatesStored
      | Inherited => Inherited
      end
  end.

Definition pathToObject (data : JsMap.t json) : build tree :=
  pathToObject_loop data (Dir []).

(** [`${prefix}/${key}`], or [key] when [prefix] is the empty (falsy) string. *)
Definition child_path (prefix key : string) : string :=
  if decide (prefix = "") then key else prefix +:+ "/" +:+ key.

(** [objectToPath(obj, prefix)], writing into [data]. [for (const key in obj)]
    visits the fields of an object, and the indices of an array. *)
Fixpoint objectToPath (obj : json) (prefix : string) (data : JsMap.t json)
  {struct obj} : JsMap.t json :=
  match obj with
  | JObj fields =>
      (fix each (fs : list (string * json)) (data : JsMap.t json)
         : JsMap.t json :=
         match fs with
         | [] => data
         | (key, value) :: fs' =>
             let path := child_path prefix key in
             each fs'
               match value with
               | JObj _ => objectToPath value path data
               | _ => JsMap.set path value data
               end
         end) fields data
  | JArr items =>
      (fix each (i : nat) (xs : list json) (data : JsMap.t json)
         : JsMap.t json :=
         match xs with
         | [] => data
         | value :: xs' =>
             let path := child_path prefix (pretty i) in
             each (S i) xs'
               match value with
               | JObj _ => objectToPath value path data
               | _ => JsMap.set path value data
               end
         end) 0%nat items data
  | _ => if decide (prefix = "") then data else JsMap.set prefix obj data
  end.

(** The adapter: the map, the dirty flag and the data file ([None] when the
    file does not exist). *)
Record state : Type := mkState {
  data : JsMap.t json;
  isDirty : bool;
  dataFile : option json
}.

(** [new LocalAdapter(config)] over an existing data file. *)
Definition create (file : option json) : state :=
  {| data := JsMap.empty; isDirty := false; dataFile := file |}.

Definition getNestedValue (path : string) (st : state) : option json :=
  JsMap.get path (data st).

Definition setNestedValue (path : string) (value : json) (st : state) : state :=
  {| data := JsMap.set path value (data st);
     isDirty := isDirty st; dataFile := dataFile st |}.

(** The loop of [deleteNestedValue] over [Array.from(this.data.keys())]. *)
Definition delete_descendants (prefix : string) (ks : list string)
  (d : JsMap.t json) : JsMap.t json :=
  fold_left (fun d key => if starts_with key prefix then JsMap.delete key d else d)
            ks d.

Definition deleteNestedValue (path : string) (st : state) : state :=
  let d := JsMap.delete path (data st) in
  {| data := delete_descendants (path +:+ "/") (JsMap.keys d) d;
     isDirty := isDirty st; dataFile := dataFile st |}.

Definition get (path : string) (st : state) : option json :=
  getNestedValue path st.

Definition set (path : string) (value : json) (st : state) : state :=
  let st' := setNestedValue path value st in
  {| data := data st'; isDirty := true; dataFile := dataFile st' |}.

Definition delete (path : string) (st : state) : state :=
  let st' := deleteNestedValue path st in
  {| data := data st'; isDirty := true; dataFile := dataFile st' |}.

(** [this.getNestedValue(path) !== undefined] *)
Definition exists_ (path : string) (st : state) : bool :=
  match getNestedValue path st with Some _ => true | None => false end.

(** [save()]: the nested object is written through a temporary file that is
    renamed over the data file. When [pathToObject] throws nothing is
    written. *)
Definition save (st : state) : build state :=
  match pathToObject (data st) with
  | Built dataObj =>
      Built {| data := data st; isDirty := false;
               dataFile := Some (tree_to_json dataObj) |}
  | TypeError => TypeError
  | MutatesStored => MutatesStored
  | Inherited => Inherited
  end.

(** [load()]: a missing file ([ENOENT]) leaves the map as it is. *)
Definition load (st : state) : state :=
  match dataFile st with
  | Some dataObj =>
      {| data := objectToPath dataObj "" (data st);
         isDirty := isDirty st; dataFile := dataFile st |}
  | None => st
  end.

(** The object [pathToObject] builds for one path, and the key
    [objectToPath] gives back for the segments of a path. *)
Fixpoint nest (parts : list string) (v : json) : tree :=
  match parts with
  | [] => Leaf v
  | k :: rest => Dir [(k, nest rest v)]
  end.

Fixpoint rejoin (prefix : string) (parts : list string) : string :=
  match parts with
  | [] => prefix
  | k :: rest => rejoin (child_path prefix k) rest
  end.

(** The walk of [pathToObject] along [parts] stays inside the objects it
    creates: no segment before the last is a name inherited from
    [Object.prototype], and the last one is not [__proto__]. *)
Fixpoint own_walk (parts : list string) : bool :=
  match parts with
  | [] => true
  | [last] => negb (bool_decide (last = "__proto__"))
  | part :: rest => negb (JsObject.inherited part) && own_walk rest
  end.

(** No value of the map is a non-array object. *)
Definition flat (d : JsMap.t json) : Prop :=
  Forall (fun kv => is_plain_object kv.2 = false) d.

(** A restart: the process ends, a new adapter is constructed over the same
    data file and [connect()] loads it. *)
Definition restart (st : state) : state := load (create (dataFile st)).

(** persist, reconnect: [save()] followed by a restart. *)
Definition persist_and_restart (st : state) : build state :=
  match save st with
  | Built st' => Built (restart st')
  | TypeError => TypeError
  | MutatesStored => MutatesStored
  | Inherited => Inherited
  end.

End LocalAdapter.

(** ** Subscriptions ([BaseMemoryAdapter.subscribe] and its overrides) *)

Module Subscriptions.

(** A callback is a function object, compared by identity; so is the handle
    returned by [setInterval] (an object: always truthy). *)
Definition callback : Type := nat.
Definition timer : Type := nat.

(** The class of the adapter decides which [subscribe] and which
    [startPolling]/[stopPolling] run. [ComposerAdapter] inherits [subscribe]
    and overrides the polling; [LocalAdapter] overrides [subscribe], calling
    the inherited one, and inherits the empty polling bodies; [AirAdapter]
    overrides [subscribe] without calling the inherited one. *)
Inductive adapter_class : Type := Local | Composer | Air.

(** A closure registered as a listener: [changeHandler] on the
    [LocalAdapter]'s event emitter for ['change'], or the function that
    [AirAdapter.subscribe] passes to [on]. Either captures the path and the
    callback. *)
Record listener : Type := mkListener {
  listener_id : nat;
  listener_path : string;
  listener_callback : callback
}.

Record state : Type := mkState {
  class : adapter_class;
  subscribers : gmap string (gset callback);
  pollingIntervals : gmap string timer;
  (** the intervals alive in the runtime: set by [setInterval], removed by
      [clearInterval] *)
  intervals : gset timer;
  next_timer : timer;
  (** [events.listeners('change')] of the [LocalAdapter] *)
  changeListeners : list listener;
  next_listener : nat;
  (** [this.gun] of the [AirAdapter] is set: [connect()] has succeeded *)
  gun : bool;
  (** the listeners registered with [on] in the store of the [AirAdapter],
      each on the node of its path *)
  gunListeners : list listener
}.

Definition create (c : adapter_class) : state :=
  {| class := c; subscribers := ∅; pollingIntervals := ∅; intervals := ∅;
     next_timer := 0%nat; changeListeners := []; next_listener := 0%nat;
     gun := false; gunListeners := [] |}.

(** A [connect()] that succeeds, as far as subscriptions go:
    [this.gun = this.peer.gun] on an [AirAdapter]. *)
Definition connect (st : state) : state :=
  {| class := class st; subscribers := subscribers st;
     pollingIntervals := pollingIntervals st; intervals := intervals st;
     next_timer := next_timer st; changeListeners := changeListeners st;
     next_listener := next_listener st;
     gun := match class st with Air => true | _ => gun st end;
     gunListeners := gunListeners st |}.

Definition with_subscribers (s : gmap string (gset callback)) (st : state)
  : state :=
  {| class := class st; subscribers := s;
     pollingIntervals := pollingIntervals st; intervals := intervals st;
     next_timer := next_timer st; changeListeners := changeListeners st;
     next_listener := next_listener st;
     gun := gun st; gunListeners := gunListeners st |}.

Definition startPolling (path : string) (st : state) : state :=
  match class st with
  | Composer =>
      match pollingIntervals st !! path with
      | Some _ => st
      | None =>
          let interval := next_timer st in
          {| class := class st; subscribers := subscribers st;
             pollingIntervals := <[path := interval]> (pollingIntervals st);
             intervals := {[interval]} ∪ intervals st;
             next_timer := S interval;
             changeListeners := changeListeners st;
             next_listener := next_listener st;
             gun := gun st; gunListeners := gunListeners st |}
      end
  | Local | Air => st
  end.

Definition stopPolling (path : string) (st : state) : state :=
  match class st with
  | Composer =>
      match pollingIntervals st !! path with
      | Some interval =>
          {| class := class st; subscribers := subscribers st;
             pollingIntervals := delete path (pollingIntervals st);
             intervals := intervals st ∖ {[interval]};
             next_timer := next_timer st;
             changeListeners := changeListeners st;
             next_listener := next_listener st;
             gun := gun st; gunListeners := gunListeners st |}
      | None => st
      end
  | Local | Air => st
  end.

(** [BaseMemoryAdapter.subscribe(path, callback)]: the registration part. The
    function it returns is [base_unsubscribe path callback]. *)
Definition base_subscribe (path : string) (cb : callback) (st : state)
  : state :=
  let subs := default ∅ (subscribers st !! path) in
  startPolling path
    (with_subscribers (<[path := {[cb]} ∪ subs]> (subscribers st)) st).

Definition base_unsubscribe (path : string) (cb : callback) (st : state)
  : state :=
  match subscribers st !! path with
  | Some subs =>
      let subs' := subs ∖ {[cb]} in
      if decide (size subs' = 0%nat)
      then stopPolling path
             (with_subscribers (delete path (subscribers st)) st)
      else with_subscribers (<[path := subs']> (subscribers st)) st
  | None => st
  end.

(** [LocalAdapter.subscribe]: the base registration, then
    [events.on('change', changeHandler)] with a new closure. The result
    carries the identity of that closure, which the returned function
    captures. *)
Definition local_subscribe (path : string) (cb : callback) (st : state)
  : nat * state :=
  let st1 := base_subscribe path cb st in
  let h := next_listener st1 in
  (h, {| class := class st1; subscribers := subscribers st1;
         pollingIntervals := pollingIntervals st1;
         intervals := intervals st1; next_timer := next_timer st1;
         changeListeners :=
           changeListeners st1 ++ [mkListener h path cb];
         next_listener := S h;
         gun := gun st1; gunListeners := gunListeners st1 |}).

(** [events.off('change', changeHandler)] *)
Definition remove_listener (h : nat) (ls : list listener) : list listener :=
  filter (fun l => listener_id l ≠ h) ls.

Definition local_unsubscribe (path : string) (cb : callback) (h : nat)
  (st : state) : state :=
  let st1 := base_unsubscribe path cb st in
  {| class := class st1; subscribers := subscribers st1;
     pollingIntervals := pollingIntervals st1;
     intervals := intervals st1; next_timer := next_timer st1;
     changeListeners := remove_listener h (changeListeners st1);
     next_listener := next_listener st1;
     gun := gun st1; gunListeners := gunListeners st1 |}.

(** [AirAdapter.subscribe]: throws ([None]) while [this.gun] is not set;
    otherwise [gunPath.on(...)] registers a new closure on the node of the
    path. Neither [this.subscribers] nor a timer is touched. *)
Definition air_subscribe (path : string) (cb : callback) (st : state)
  : option (nat * state) :=
  if gun st then
    let h := next_listener st in
    Some (h, {| class := class st; subscribers := subscribers st;
                pollingIntervals := pollingIntervals st;
                intervals := intervals st; next_timer := next_timer st;
                changeListeners := changeListeners st;
                next_listener := S h;
                gun := gun st;
                gunListeners := gunListeners st ++ [mkListener h path cb] |})
  else None.

(** [gunPath.off()] in the store: every listener on the node of the path is
    removed, whoever registered it. *)
Definition gun_off (path : string) (ls : list listener) : list listener :=
  filter (fun l => listener_path l ≠ path) ls.

(** The function [AirAdapter.subscribe] returns: [gunPath.off()]. *)
Definition air_unsubscribe (path : string) (st : state) : state :=
  {| class := class st; subscribers := subscribers st;
     pollingIntervals := pollingIntervals st;
     intervals := intervals st; next_timer := next_timer st;
     changeListeners := changeListeners st;
     next_listener := next_listener st;
     gun := gun st;
     gunListeners := gun_off path (gunListeners st) |}.

(** The callbacks that the store of an [AirAdapter] calls when the node of
    [path] changes, in the order of registration. *)
Definition gun_callbacks (path : string) (st : state) : list callback :=
  listener_callback <$>
    filter (fun l => listener_path l = path) (gunListeners st).

(** [subscribe] as dispatched on the adapter's class, with the token the
    returned unsubscribe function closes over; [None] when it throws. *)
Definition subscribe (path : string) (cb : callback) (st : state)
  : option (nat * state) :=
  match class st with
  | Local => Some (local_subscribe path cb st)
  | Composer => Some (0%nat, base_subscribe path cb st)
  | Air => air_subscribe path cb st
  end.

Definition unsubscribe (path : string) (cb : callback) (h : nat) (st : state)
  : state :=
  match class st with
  | Local => local_unsubscribe path cb h st
  | Composer => base_unsubscribe path cb st
  | Air => air_unsubscribe path st
  end.

(** [n] rounds of: subscribe, then call the function it returned. *)
Fixpoint cycles (n : nat) (path : string) (cb : callback) (st : state)
  : option state :=
  match n with
  | O => Some st
  | S n' =>
      match subscribe path cb st with
      | Some (h, st1) => cycles n' path cb (unsubscribe path cb h st1)
      | None => None
      end
  end.

(** What stays as it was across rounds of subscribe and unsubscribe. *)
Definition same_resources (st st' : state) : Prop :=
  subscribers st' = subscribers st ∧
  pollingIntervals st' = pollingIntervals st ∧
  intervals st' = intervals st ∧
  changeListeners st' = changeListeners st ∧
  gunListeners st' = gunListeners st.

(** Every live interval was handed out before [next_timer], every recorded
    listener before [next_listener], and a [LocalAdapter] has no
    [pollingIntervals]. Holds of [create c] and is kept by the operations
    above. *)
Definition wf (st : state) : Prop :=
  (∀ t, t ∈ intervals st → (t < next_timer st)%nat) ∧
  (∀ l, l ∈ changeListeners st → (listener_id l < next_listener st)%nat) ∧
  (class st = Local → pollingIntervals st = ∅).

End Subscriptions.

(** ** The adapter registry *)

Module AdapterRegistry.

Inductive health_status : Type := healthy | degraded | unhealthy.

Record AdapterHealth : Type := mkHealth {
  status : health_status;
  latency : Z;
  storage_used : Z;
  storage_available : Z;
  error : option string
}.

(** The settlement of a promise: resolved with a value, or rejected with an
    [Error] carrying a message. *)
Inductive promise (A : Type) : Type :=
| Resolved (a : A)
| Rejected (message : string).
Arguments Resolved {A} a.
Arguments Rejected {A} message.

Definition then_ {A B : Type} (p : promise A) (k : A → promise B)
  : promise B :=
  match p with
  | Resolved a => k a
  | Rejected m => Rejected m
  end.

(** [try { p } catch (error) { handler(error.message) }] *)
Definition try_catch {A : Type} (p : promise A) (handler : string → promise A)
  : promise A :=
  match p with
  | Resolved a => Resolved a
  | Rejected m => handler m
  end.

(** An adapter as the registry sees it: its name and how its [health()]
    probe settles when called. *)
Record MemoryAdapter : Type := mkAdapter {
  name : string;
  health : promise AdapterHealth
}.

Record state : Type := mkRegistry {
  adapters : JsMap.t MemoryAdapter;
  primaryAdapter : option string
}.

Definition initial : state :=
  {| adapters := JsMap.empty; primaryAdapter := None |}.

(** [!this.primaryAdapter]: true of [null] and of the empty string. *)
Definition no_primary (p : option string) : bool :=
  match p with
  | None => true
  | Some s => bool_decide (s = "")
  end.

Definition register (adapter : MemoryAdapter) (st : state) : state :=
  {| adapters := JsMap.set (name adapter) adapter (adapters st);
     primaryAdapter :=
       if no_primary (primaryAdapter st) then Some (name adapter)
       else primaryAdapter st |}.

(** The registry after registering [l], first to last. *)
Definition register_all (l : list MemoryAdapter) : state :=
  fold_left (fun st a => register a st) l initial.

Definition unhealthy_entry (message : string) : AdapterHealth :=
  {| status := unhealthy; latency := -1; storage_used := 0;
     storage_available := 0; error := Some message |}.

(** The [for (const [name, adapter] of this.adapters)] loop. *)
Fixpoint healthCheck_loop (entries : list (string * MemoryAdapter))
  (results : gmap string AdapterHealth)
  : promise (gmap string AdapterHealth) :=
  match entries with
  | [] => Resolved results
  | (name, adapter) :: entries' =>
      then_
        (try_catch (health adapter)
                   (fun message => Resolved (unhealthy_entry message)))
        (fun h => healthCheck_loop entries' (<[name := h]> results))
  end.

Definition healthCheck (st : state) : promise (gmap string AdapterHealth) :=
  healthCheck_loop (adapters st) ∅.

(** The entry [healthCheck] reports for an adapter. *)
Definition reported (a : MemoryAdapter) : AdapterHealth :=
  match health a with
  | Resolved h => h
  | Rejected message => unhealthy_entry message
  end.

(** Registered adapters sit under their own name, once. *)
Definition keyed_by_name (st : state) : Prop :=
  NoDup (JsMap.keys (adapters st)) ∧
  ∀ n a, (n, a) ∈ adapters st → name a = n.

End AdapterRegistry.

(** ** Arrays *)

(** [Array.prototype.sort(cmp)]: stable since ES2019; for a comparator that
    is a consistent ordering the result of a stable sort is unique, and this
    insertion sort computes it. [cmp a b <= 0] keeps [a] before [b]. *)
Fixpoint js_sort_insert {A : Type} (cmp : A → A → Z) (x : A) (l : list A)
  : list A :=
  match l with
  | [] => [x]
  | y :: l' =>
      if (cmp x y <=? 0)%Z then x :: y :: l' else y :: js_sort_insert cmp x l'
  end.

Definition js_sort {A : Type} (cmp : A → A → Z) (l : list A) : list A :=
  fold_right (js_sort_insert cmp) [] l.

(** [Array.prototype.slice(start)] for an integral [start]. *)
Definition js_slice {A : Type} (start : Z) (l : list A) : list A :=
  let len := Z.of_nat (length l) in
  let k := if (start <? 0)%Z then Z.max (len + start) 0 else Z.min start len in
  drop (Z.to_nat k) l.

(** [Array.prototype.findIndex]; [None] is [-1]. *)
Definition js_findIndex {A : Type} (P : A → Prop) `{!∀ x, Decision (P x)}
  (l : list A) : option nat :=
  fst <$> list_find P l.

(** [Array.prototype.includes] on strings. *)
Definition includes (x : string) (l : list string) : bool :=
  bool_decide (x ∈ l).

(** ** The Workrooms engine *)

Module Workrooms.

Inductive room_type : Type := project | team | task | dm | global.

#[global] Instance room_type_eq_dec : EqDecision room_type.
Proof. solve_decision. Defined.

Inductive user_type : Type := agent | human.
Inductive user_status : Type := st_active | st_away | st_busy | st_offline.

Record RoomSettings : Type := mkSettings {
  allowAgents : bool;
  allowHumans : bool;
  autoArchive : Z;
  maxMessages : Z;
  notifications : bool
}.

Record Workroom : Type := mkRoom {
  room_id : string;
  room_name : string;
  room_kind : room_type;
  description : string;
  created : Z;
  creator : string;
  private : bool;
  members : list string;
  moderators : list string;
  active : bool;
  archived : bool;
  lastActivity : Z;
  messageCount : Z;
  projectId : option string;
  teamId : option string;
  taskId : option string;
  settings : RoomSettings
}.

Record WorkroomMessage : Type := mkMessage {
  msg_id : string;
  msg_roomId : string;
  msg_from : string;
  msg_fromType : user_type;
  msg_to : option string;
  msg_text : string;
  timestamp : Z;
  thread : option string;
  attachments : option (list json)
}.

Record WorkroomUser : Type := mkUser {
  user_id : string;
  user_name : string;
  user_kind : user_type;
  online : bool;
  lastSeen : Z;
  user_state : user_status
}.

Record WorkroomPresence : Type := mkPresence {
  pr_roomId : string;
  pr_userId : string;
  joined : Z;
  typing : option bool;
  pr_lastActivity : Z
}.

Inductive event_type : Type :=
| ev_message | ev_join | ev_leave | ev_typing | ev_presence
| ev_room_created | ev_room_updated.

(** The [data] payload of an event. *)
Inductive event_data : Type :=
| DataRoom (room : Workroom)
| DataUser (userId : string)
| DataMessage (message : WorkroomMessage).

Record WorkroomEvent : Type := mkEvent {
  ev_type : event_type;
  ev_roomId : string;
  ev_userId : option string;
  ev_data : event_data;
  ev_timestamp : Z
}.

(** A write to the replicated store: [gun.get(k1).get(k2)....put(value)]. *)
Inductive air_value : Type :=
| PutRoom (room : Workroom)
| PutMessage (message : WorkroomMessage)
| PutPresence (presence : WorkroomPresence)
| PutNull.

Record air_put : Type := mkPut {
  put_path : list string;
  put_value : air_value
}.

(** The argument of [createRoom]: [Partial<Workroom> & { name, type }]. Of
    the optional fields, [members] and [moderators] stand for those that
    [createRoom] never reads. *)
Record PartialSettings : Type := mkPartialSettings {
  ps_allowAgents : option bool;
  ps_allowHumans : option bool;
  ps_autoArchive : option Z;
  ps_maxMessages : option Z;
  ps_notifications : option bool
}.

Record RoomOptions : Type := mkOptions {
  opt_name : string;
  opt_type : room_type;
  opt_description : option string;
  opt_private : option bool;
  opt_members : option (list string);
  opt_moderators : option (list string);
  opt_projectId : option string;
  opt_teamId : option string;
  opt_taskId : option string;
  opt_settings : option PartialSettings
}.

Inductive action : Type :=
| a_create | a_join | a_leave | a_message | a_list | a_history
| a_invite | a_kick.

Definition action_name (a : action) : string :=
  match a with
  | a_create => "create" | a_join => "join" | a_leave => "leave"
  | a_message => "message" | a_list => "list" | a_history => "history"
  | a_invite => "invite" | a_kick => "kick"
  end.

(** [command.options]: the fields [handleCommand] spreads into the room
    options, and [limit]. *)
Record CommandOptions : Type := mkCommandOptions {
  co_name : option string;
  co_type : option room_type;
  co_description : option string;
  co_private : option bool;
  co_members : option (list string);
  co_moderators : option (list string);
  co_projectId : option string;
  co_teamId : option string;
  co_taskId : option string;
  co_settings : option PartialSettings;
  co_limit : option Z
}.

(** [roomId] and [message] are read under a non-null assertion
    ([command.roomId!]); they are present in the model. *)
Record WorkroomCommand : Type := mkCommand {
  cmd_action : action;
  cmd_roomId : string;
  cmd_message : string;
  cmd_to : option string;
  cmd_options : option CommandOptions
}.

(** An [Error] is known by its message. *)
Record Error : Type := mkError { error_message : string }.

Definition RoomNotFound : Error := mkError "Room not found".
(** The spec's [NotMemberError]. *)
Definition NotMemberError : Error := mkError "Not a member of this room".
Definition UserNotFound : Error := mkError "User not found".
Definition UnknownCommand (a : action) : Error :=
  mkError ("Unknown command: " +:+ action_name a).

Inductive outcome (A : Type) : Type :=
| Returned (a : A)
| Thrown (e : Error).
Arguments Returned {A} a.
Arguments Thrown {A} e.

Record Engine : Type := mkEngine {
  currentUser : WorkroomUser;
  rooms : JsMap.t Workroom;
  messages : JsMap.t (list WorkroomMessage);
  presence : JsMap.t (JsMap.t WorkroomPresence);
  users : JsMap.t WorkroomUser;
  (** the writes issued to the store, oldest first *)
  air : list air_put;
  (** the events handed to the registered handlers, oldest first *)
  emitted : list WorkroomEvent;
  (** calls of [Date.now()] and of [uuid()] made so far *)
  clock_reads : nat;
  uuid_reads : nat
}.

(** The fields as the class initialises them. *)
Definition fresh (user : WorkroomUser) : Engine :=
  {| currentUser := user; rooms := []; messages := []; presence := [];
     users := []; air := []; emitted := []; clock_reads := 0;
     uuid_reads := 0 |}.

Definition with_rooms (r : JsMap.t Workroom) (st : Engine) : Engine :=
  {| currentUser := currentUser st; rooms := r; messages := messages st;
     presence := presence st; users := users st; air := air st;
     emitted := emitted st; clock_reads := clock_reads st;
     uuid_reads := uuid_reads st |}.

Definition with_messages (m : JsMap.t (list WorkroomMessage)) (st : Engine)
  : Engine :=
  {| currentUser := currentUser st; rooms := rooms st; messages := m;
     presence := presence st; users := users st; air := air st;
     emitted := emitted st; clock_reads := clock_reads st;
     uuid_reads := uuid_reads st |}.

(** State and exceptions: a method maps the engine to its outcome and the
    engine it leaves behind. *)
Definition M (A : Type) : Type := Engine → outcome A * Engine.

Definition ret {A : Type} (a : A) : M A := fun st => (Returned a, st).

Definition throw {A : Type} (e : Error) : M A := fun st => (Thrown e, st).

Definition bind {A B : Type} (m : M A) (k : A → M B) : M B :=
  fun st =>
    match m st with
    | (Returned a, st') => k a st'
    | (Thrown e, st') => (Thrown e, st')
    end.

Notation "'do' x <- m ; k" := (bind m (fun x => k))
  (at level 10, x name, m at level 100, k at level 200,
   format "'[v' 'do'  x  <-  m ; '/' k ']'").
Notation "'do_' m ; k" := (bind m (fun _ => k))
  (at level 10, m at level 100, k at level 200,
   format "'[v' 'do_'  m ; '/' k ']'").

Definition read {A : Type} (f : Engine → A) : M A :=
  fun st => (Returned (f st), st).

Definition modify (f : Engine → Engine) : M unit :=
  fun st => (Returned tt, f st).

Section Engine.

(** [now n] is what the [n]-th call of [Date.now()] returns, [uuid n] what
    the [n]-th call of [uuid()] returns. *)
Variable now : nat → Z.
Variable uuid : nat → string.

Definition Date_now : M Z :=
  fun st =>
    (Returned (now (clock_reads st)),
     {| currentUser := currentUser st; rooms := rooms st;
        messages := messages st; presence := presence st; users := users st;
        air := air st; emitted := emitted st;
        clock_reads := S (clock_reads st); uuid_reads := uuid_reads st |}).

Definition new_uuid : M string :=
  fun st =>
    (Returned (uuid (uuid_reads st)),
     {| currentUser := currentUser st; rooms := rooms st;
        messages := messages st; presence := presence st; users := users st;
        air := air st; emitted := emitted st;
        clock_reads := clock_reads st; uuid_reads := S (uuid_reads st) |}).

(** [await this.airClient.gun.get(...)....put(value)] *)
Definition put (path : list string) (value : air_value) : M unit :=
  modify (fun st =>
    {| currentUser := currentUser st; rooms := rooms st;
       messages := messages st; presence := presence st; users := users st;
       air := air st ++ [mkPut path value]; emitted := emitted st;
       clock_reads := clock_reads st; uuid_reads := uuid_reads st |}).

Definition emit (type : event_type) (roomId : string) (data : event_data)
  : M unit :=
  do me <- read (fun st => user_id (currentUser st));
  do t <- Date_now;
  modify (fun st =>
    {| currentUser := currentUser st; rooms := rooms st;
       messages := messages st; presence := presence st; users := users st;
       air := air st;
       emitted := emitted st ++ [mkEvent type roomId (Some me) data t];
       clock_reads := clock_reads st; uuid_reads := uuid_reads st |}).

(** The room object is shared between the local variable [room] and the
    [rooms] map: a mutation of [room] is an update of the entry. *)
Definition update_room (roomId : string) (room : Workroom) : M unit :=
  modify (fun st => with_rooms (JsMap.set roomId room (rooms st)) st).

Definition set_members (ms : list string) (r : Workroom) : Workroom :=
  mkRoom (room_id r) (room_name r) (room_kind r) (description r) (created r)
    (creator r) (private r) ms (moderators r) (active r) (archived r)
    (lastActivity r) (messageCount r) (projectId r) (teamId r) (taskId r)
    (settings r).

Definition set_activity (t : Z) (count : Z) (r : Workroom) : Workroom :=
  mkRoom (room_id r) (room_name r) (room_kind r) (description r) (created r)
    (creator r) (private r) (members r) (moderators r) (active r)
    (archived r) t count (projectId r) (teamId r) (taskId r) (settings r).

Definition write_presence (roomId : string) : M unit :=
  do me <- read (fun st => user_id (currentUser st));
  do j <- Date_now;
  do a <- Date_now;
  put ["workroom-presence"; roomId; me]
      (PutPresence (mkPresence roomId me j None a)).

Definition joinRoom (roomId : string) : M unit :=
  do found <- read (fun st => JsMap.get roomId (rooms st));
  match found with
  | None => throw RoomNotFound
  | Some room =>
      do me <- read (fun st => user_id (currentUser st));
      do_ (if includes me (members room) then ret tt
           else
             let room' := set_members (members room ++ [me]) room in
             do_ update_room roomId room';
             put ["workrooms"; roomId] (PutRoom room'));
      do_ write_presence roomId;
      emit ev_join roomId (DataUser me)
  end.

Definition leaveRoom (roomId : string) : M unit :=
  do found <- read (fun st => JsMap.get roomId (rooms st));
  match found with
  | None => ret tt
  | Some room =>
      do me <- read (fun st => user_id (currentUser st));
      let room' :=
        set_members (filter (fun id => id ≠ me) (members room)) room in
      do_ update_room roomId room';
      do_ put ["workrooms"; roomId] (PutRoom room');
      do_ put ["workroom-presence"; roomId; me] PutNull;
      emit ev_leave roomId (DataUser me)
  end.

Definition updatePresence (roomId : string) : M unit :=
  write_presence roomId.

Definition sendMessage (roomId content : string) (to thread : option string)
  (atts : option (list json)) : M WorkroomMessage :=
  do found <- read (fun st => JsMap.get roomId (rooms st));
  match found with
  | None => throw RoomNotFound
  | Some room =>
      do user <- read currentUser;
      if includes (user_id user) (members room) then
        do id <- new_uuid;
        do t <- Date_now;
        let msg :=
          mkMessage id roomId (user_id user) (user_kind user) to content t
                    thread atts in
        do_ put ["workroom-messages"; roomId; id] (PutMessage msg);
        do t' <- Date_now;
        let room' := set_activity t' (messageCount room + 1) room in
        do_ update_room roomId room';
        do_ put ["workrooms"; roomId] (PutRoom room');
        do_ updatePresence roomId;
        ret msg
      else throw NotMemberError
  end.

Definition default_settings (p : option PartialSettings) : RoomSettings :=
  match p with
  | None => mkSettings true true 30 1000 true
  | Some p =>
      mkSettings (default true (ps_allowAgents p))
                 (default true (ps_allowHumans p))
                 (default 30 (ps_autoArchive p))
                 (default 1000 (ps_maxMessages p))
                 (default true (ps_notifications p))
  end.

Definition createRoom (options : RoomOptions) : M Workroom :=
  do id <- new_uuid;
  do c <- Date_now;
  do me <- read (fun st => user_id (currentUser st));
  do a <- Date_now;
  let room :=
    mkRoom id (opt_name options) (opt_type options)
      (default "" (opt_description options)) c me
      (default false (opt_private options)) [me] [me] true false a 0
      (opt_projectId options) (opt_teamId options) (opt_taskId options)
      (default_settings (opt_settings options)) in
  do_ put ["workrooms"; id] (PutRoom room);
  do_ update_room id room;
  do_ modify (fun st => with_messages (JsMap.set id [] (messages st)) st);
  do_ joinRoom id;
  (* [room] still names the object held by the map *)
  do shared <- read (fun st => default room (JsMap.get id (rooms st)));
  do_ emit ev_room_created id (DataRoom shared);
  ret shared.

(** The room object [createRoom] builds, read off its literal. *)
Definition created_room (options : RoomOptions) (st : Engine) : Workroom :=
  let me := user_id (currentUser st) in
  mkRoom (uuid (uuid_reads st)) (opt_name options) (opt_type options)
    (default "" (opt_description options)) (now (clock_reads st)) me
    (default false (opt_private options)) [me] [me] true false
    (now (S (clock_reads st))) 0
    (opt_projectId options) (opt_teamId options) (opt_taskId options)
    (default_settings (opt_settings options)).

(** [limit ? messages.slice(-limit) : messages] *)
Definition getRoomMessages (roomId : string) (limit : option Z) (st : Engine)
  : list WorkroomMessage :=
  let messages := default [] (JsMap.get roomId (messages st)) in
  match limit with
  | Some l => if decide (l = 0) then messages else js_slice (- l) messages
  | None => messages
  end.

Definition getUserRooms (st : Engine) : list Workroom :=
  js_sort (fun a b => lastActivity b - lastActivity a)
    (filter (fun room => user_id (currentUser st) ∈ members room)
            (JsMap.values (rooms st))).

(** The outcome of a method with its returned value mapped; a thrown error
    passes as it is. *)
Definition map_returned {A B : Type} (f : A → B) (r : outcome A * Engine)
  : outcome B * Engine :=
  match r with
  | (Returned a, st) => (Returned (f a), st)
  | (Thrown e, st) => (Thrown e, st)
  end.

(** What [handleCommand] resolves with. *)
Inductive command_result : Type :=
| ResRoom (room : Workroom)
| ResSuccessText (message : string)
| ResSuccessMessage (message : WorkroomMessage)
| ResRooms (rooms : list Workroom)
| ResMessages (messages : list WorkroomMessage).

(** [{ name: command.roomId!, type: 'task', ...command.options }] *)
Definition create_options (command : WorkroomCommand) : RoomOptions :=
  match cmd_options command with
  | None =>
      mkOptions (cmd_roomId command) task None None None None None None None
                None
  | Some o =>
      mkOptions (default (cmd_roomId command) (co_name o))
                (default task (co_type o)) (co_description o) (co_private o)
                (co_members o) (co_moderators o) (co_projectId o)
                (co_teamId o) (co_taskId o) (co_settings o)
  end.

(** [command.options?.limit || 50] *)
Definition history_limit (command : WorkroomCommand) : Z :=
  match cmd_options command with
  | Some o =>
      match co_limit o with
      | Some l => if decide (l = 0) then 50 else l
      | None => 50
      end
  | None => 50
  end.

Definition handleCommand (command : WorkroomCommand) : M command_result :=
  match cmd_action command with
  | a_create =>
      do room <- createRoom (create_options command);
      ret (ResRoom room)
  | a_join =>
      do_ joinRoom (cmd_roomId command);
      ret (ResSuccessText ("Joined room " +:+ cmd_roomId command))
  | a_leave =>
      do_ leaveRoom (cmd_roomId command);
      ret (ResSuccessText ("Left room " +:+ cmd_roomId command))
  | a_message =>
      do msg <- sendMessage (cmd_roomId command) (cmd_message command)
                  (cmd_to command) None None;
      ret (ResSuccessMessage msg)
  | a_list => do rs <- read getUserRooms; ret (ResRooms rs)
  | a_history =>
      do ms <- read (getRoomMessages (cmd_roomId command)
                       (Some (history_limit command)));
      ret (ResMessages ms)
  | a => throw (UnknownCommand a)
  end.

(** The callback of the per-room message subscription
    ([gun.get('workroom-messages').get(roomId).map().on(...)]); [None] is a
    falsy delivery. *)
Definition upsert (message : WorkroomMessage) (msgId : string)
  (roomMessages : list WorkroomMessage) : list WorkroomMessage :=
  match js_findIndex (fun m => msg_id m = msgId) roomMessages with
  | Some existingIndex => <[existingIndex := message]> roomMessages
  | None =>
      js_sort (fun a b => timestamp a - timestamp b)
              (roomMessages ++ [message])
  end.

Definition onMessage (roomId : string) (message : option WorkroomMessage)
  (msgId : string) : M unit :=
  match message with
  | None => ret tt
  | Some message =>
      do roomMessages <-
        read (fun st => default [] (JsMap.get roomId (messages st)));
      do_ modify (fun st =>
            with_messages
              (JsMap.set roomId (upsert message msgId roomMessages)
                         (messages st)) st);
      emit ev_message roomId (DataMessage message)
  end.

(** A delivery from the store and the engine after a run of them. *)
Record delivery : Type := mkDelivery {
  d_room : string;
  d_message : option WorkroomMessage;
  d_key : string
}.

Definition deliver (st : Engine) (d : delivery) : Engine :=
  snd (onMessage (d_room d) (d_message d) (d_key d) st).


(** [createDirectMessage(userId)] *)
Definition createDirectMessage (userId : string) : M Workroom :=
  do other <- read (fun st => JsMap.get userId (users st));
  match other with
  | None => throw UserNotFound
  | Some otherUser =>
      do user <- read currentUser;
      do existing <-
        read (fun st =>
          snd <$> list_find
            (fun room : Workroom =>
               room_kind room = dm ∧ user_id user ∈ members room ∧
               userId ∈ members room ∧ length (members room) = 2%nat)
            (JsMap.values (rooms st)));
      match existing with
      | Some existingDM => ret existingDM
      | None =>
          createRoom
            (mkOptions (user_name user +:+ " ⟷ " +:+ user_name otherUser)
               dm (Some "Direct message") (Some true)
               (Some [user_id user; userId]) None None None None
               (Some (mkPartialSettings (Some true) (Some true) (Some 0)
                        (Some 10000) (Some true))))
      end
  end.

(** The server's wrapper around [handleCommand] (Dashboard Server 3.0,
    [handleWorkroomCommand]): what it sends over the socket. *)
Inductive ws_message : Type :=
| WsError (message : string)
| WsWorkroomResult (command : action) (result : command_result)
| WsWorkroomError (command : action) (error : string).

Definition handleWorkroomCommand (command : WorkroomCommand)
  (workrooms : option Engine) : ws_message * option Engine :=
  match workrooms with
  | None => (WsError "Workrooms not initialized", None)
  | Some st =>
      match handleCommand command st with
      | (Returned result, st') =>
          (WsWorkroomResult (cmd_action command) result, Some st')
      | (Thrown error, st') =>
          (WsWorkroomError (cmd_action command) (error_message error),
           Some st')
      end
  end.

End Engine.

(** Ascending by creation timestamp: the timestamps, in list order, never
    decrease. *)
Definition sorted_by_timestamp (l : list WorkroomMessage) : Prop :=
  Sorted Z.le (timestamp <$> l).





(** Sample data for the worked instances below. *)
Definition alice : WorkroomUser :=
  mkUser "alice" "Alice" human true 0 st_active.

Definition ticks (n : nat) : Z := 1000 + Z.of_nat n.

Definition serial (n : nat) : string := "room-" +:+ pretty n.

Definition note (id : string) (t : Z) : WorkroomMessage :=
  mkMessage id "lobby" "bob" human None "hello" t None None.

Definition lobby : Workroom :=
  mkRoom "lobby" "lobby" team "" 10 "bob" false ["bob"] ["bob"] true false
         10 0 None None None (mkSettings true true 30 1000 true).

(** An engine run by [alice] that knows the room [lobby], of which she is
    not a member. *)
Definition visiting : Engine :=
  with_messages [("lobby", [])] (with_rooms [("lobby", lobby)] (fresh alice)).

End Workrooms.

(** ** The snapshot adapter: the rest of its operations *)

Module LocalAdapterOps.
Import LocalAdapter.

(** JavaScript truthiness of a stored value, as [x || []] tests it. *)
Definition truthy (v : json) : bool :=
  match v with
  | JNull => false
  | JBool b => b
  | JNum n => negb (n =? 0)%Z
  | JStr s => match s with EmptyString => false | _ => true end
  | JArr _ | JObj _ => true
  end.

Definition channel_path (channel : string) : string :=
  "pubsub/" +:+ channel +:+ "/messages".

(** [messages.splice(0, messages.length - 100)] when the array is longer
    than 100. *)
Definition keep_last_100 (messages : list json) : list json :=
  if (100 <? length messages)%nat
  then drop (length messages - 100) messages
  else messages.

(** [publish(channel, message)]. The message is an object, given by its
    fields; [now] is what [Date.now()] returns. [(await get(p)) || []] is
    the stored array, or a new one when the value is missing or falsy; on
    any other value [messages.push] is not a function and the call
    throws. *)
Definition publish (channel : string) (message : list (string * json))
  (now : Z) (st : state) : build state :=
  let channelPath := channel_path channel in
  let entry := JObj (JsMap.set "timestamp" (JNum now) message) in
  let messages :=
    match get channelPath st with
    | Some v => if truthy v then Some v else Some (JArr [])
    | None => Some (JArr [])
    end in
  match messages with
  | Some (JArr items) =>
      Built (set channelPath (JArr (keep_last_100 (items ++ [entry]))) st)
  | _ => TypeError
  end.

(** The walk of [list(prefix)] over the nested object: every path below
    [obj] that starts with [prefix], in the order of the walk. *)
Fixpoint traverse (prefix : string) (obj : json) (currentPath : list string)
  {struct obj} : list string :=
  match obj with
  | JObj fields =>
      (fix each (fs : list (string * json)) : list string :=
         match fs with
         | [] => []
         | (key, value) :: fs' =>
             let newPath := currentPath ++ [key] in
             let fullPath := String.concat "/" newPath in
             (if starts_with fullPath prefix then [fullPath] else [])
               ++ traverse prefix value newPath ++ each fs'
         end) fields
  | JArr items =>
      (fix each (i : nat) (xs : list json) : list string :=
         match xs with
         | [] => []
         | value :: xs' =>
             let newPath := currentPath ++ [pretty i] in
             let fullPath := String.concat "/" newPath in
             (if starts_with fullPath prefix then [fullPath] else [])
               ++ traverse prefix value newPath ++ each (S i) xs'
         end) 0%nat items
  | _ => []
  end.

Definition list_ (prefix : string) (st : state) : build (list string) :=
  match pathToObject (data st) with
  | Built rootObj => Built (traverse prefix (tree_to_json rootObj) [])
  | TypeError => TypeError
  | MutatesStored => MutatesStored
  | Inherited => Inherited
  end.




(** [health()]. [t0], [t1], [t2] are the three readings of [Date.now()];
    [fileSize] is what [fs.stat] reports for the data file, 0 standing in
    when the file is missing. The [catch] branch is not reached: [set],
    [get] and [delete] do not throw. *)
Definition health (t0 t1 t2 fileSize : Z) (st : state)
  : AdapterRegistry.AdapterHealth * state :=
  let testKey := ".health-check" in
  let st1 := set testKey (JNum t1) st in
  let st2 := delete testKey st1 in
  (AdapterRegistry.mkHealth AdapterRegistry.healthy (t2 - t0)
     (match dataFile st2 with Some _ => fileSize | None => 0 end)
     (1024 * 1024 * 100) None,
   st2).

(** [BaseMemoryAdapter.batch(operations)] on this adapter: the operations in
    order. A [set] operation carries its value. *)
Inductive BatchOperation : Type :=
| OpSet (path : string) (value : json)
| OpDelete (path : string).

Definition batch_step (st : state) (op : BatchOperation) : state :=
  match op with
  | OpSet path value => set path value st
  | OpDelete path => delete path st
  end.

Definition batch (operations : list BatchOperation) (st : state) : state :=
  fold_left batch_step operations st.

(** The value the last [set] on [path] in a batch carries. *)
Fixpoint last_set (path : string) (operations : list BatchOperation)
  : option json :=
  match operations with
  | [] => None
  | OpSet p v :: rest =>
      match last_set path rest with
      | Some v' => Some v'
      | None => if decide (p = path) then Some v else None
      end
  | OpDelete _ :: rest => last_set path rest
  end.

Definition only_sets (operations : list BatchOperation) : Prop :=
  Forall (fun op => match op with OpSet _ _ => True | OpDelete _ => False end)
         operations.

(** A map of plain names: no key occurs twice, no key has a slash or is
    [__proto__], and no value is a non-array object. *)
Definition plain_names (d : JsMap.t json) : Prop :=
  NoDup (JsMap.keys d) ∧
  Forall (fun kv => split_slash kv.1 = [kv.1] ∧ kv.1 ≠ "__proto__" ∧
                    is_plain_object kv.2 = false)
         d.

(** The entries of a map as the properties of one object, each assigned in
    turn: the order in which a map of plain names comes back from its
    file. *)
Definition property_order (d : JsMap.t json) : JsObject.t json :=
  fold_left (fun o kv => JsObject.set kv.1 kv.2 o) d [].

End LocalAdapterOps.

(** ** The adapter registry: the rest of its operations *)

Module AdapterRegistryOps.
Import AdapterRegistry.

(** [AdapterRegistry.get(name)] *)
Definition get (n : string) (st : state) : option MemoryAdapter :=
  JsMap.get n (adapters st).

(** [AdapterRegistry.getPrimary()]: [undefined] when the primary name is
    [null] or empty. *)
Definition getPrimary (st : state) : option MemoryAdapter :=
  if no_primary (primaryAdapter st) then None
  else match primaryAdapter st with
       | Some p => JsMap.get p (adapters st)
       | None => None
       end.

(** [AdapterRegistry.setPrimary(name)]; [Rejected] is the thrown [Error]. *)
Definition setPrimary (n : string) (st : state) : promise state :=
  if JsMap.has n (adapters st)
  then Resolved {| adapters := adapters st; primaryAdapter := Some n |}
  else Rejected ("Adapter " +:+ n +:+ " not found").

(** [AdapterRegistry.list()] *)
Definition list_ (st : state) : list string := JsMap.keys (adapters st).

(** The registry after registering [l], first to last, on top of [st]. *)
Definition register_onto (st : state) (l : list MemoryAdapter) : state :=
  fold_left (fun st a => register a st) l st.

End AdapterRegistryOps.

(** ** Subscriptions: runs of requests, and who is notified *)

Module SubscriptionsOps.
Import Subscriptions.

(** A call of [subscribe(path, callback)], or of a function that an earlier
    [subscribe(path, callback)] returned. *)
Inductive request : Type :=
| Subscribe (path : string) (cb : callback)
| Unsubscribe (path : string) (cb : callback).

Definition serve (st : state) (r : request) : state :=
  match r with
  | Subscribe path cb => base_subscribe path cb st
  | Unsubscribe path cb => base_unsubscribe path cb st
  end.

Definition serve_all (rs : list request) (st : state) : state :=
  fold_left serve rs st.

(** The polling table of a [ComposerAdapter] matches its subscriptions: the
    paths with subscribers are the paths with an interval, the live
    intervals are those of the table, no two paths share one, and no
    subscriber set is empty. *)
Definition polling_matches (st : state) : Prop :=
  (∀ p, is_Some (subscribers st !! p) ↔ is_Some (pollingIntervals st !! p)) ∧
  (∀ t, t ∈ intervals st ↔ ∃ p, pollingIntervals st !! p = Some t) ∧
  (∀ p q t, pollingIntervals st !! p = Some t →
            pollingIntervals st !! q = Some t → p = q) ∧
  (∀ p t, pollingIntervals st !! p = Some t → (t < next_timer st)%nat) ∧
  (∀ p subs, subscribers st !! p = Some subs → subs ≠ ∅).

(** [notifySubscribers(path, data)]: the callbacks called, each once. *)
Definition notifySubscribers (path : string) (st : state) : gset callback :=
  default ∅ (subscribers st !! path).

(** The test of [changeHandler]:
    [changedPath === path || changedPath.startsWith(path + '/')]. *)
Definition hears (changedPath : string) (l : listener) : Prop :=
  changedPath = listener_path l ∨
  starts_with changedPath (listener_path l +:+ "/") = true.

#[global] Instance hears_dec changedPath l : Decision (hears changedPath l).
Proof. unfold hears. apply _. Defined.

(** [events.emit('change', changedPath, value)] on a [LocalAdapter]: the
    callbacks the listeners call, in the order of registration. *)
Definition change_calls (changedPath : string) (st : state) : list callback :=
  listener_callback <$> filter (hears changedPath) (changeListeners st).

(** How many times [LocalAdapter.set(path, value)] calls [cb]: the ['change']
    event first, [notifySubscribers] next. *)
Definition calls_on_set (path : string) (cb : callback) (st : state) : nat :=
  length (filter (fun c => c = cb) (change_calls path st)) +
  (if decide (cb ∈ notifySubscribers path st) then 1 else 0).

(** How many times [LocalAdapter.delete(path)] calls [cb]: nothing listens to
    the ['delete'] event, [notifySubscribers] is all. *)
Definition calls_on_delete (path : string) (cb : callback) (st : state)
  : nat :=
  if decide (cb ∈ notifySubscribers path st) then 1 else 0.

End SubscriptionsOps.

(** ** The Workrooms engine: the rest of its accessors *)

Module WorkroomsOps.
Import Workrooms.

(** [getOnlineUsers()]; [b.lastSeen || 0] is [b.lastSeen] on numbers. *)
Definition getOnlineUsers (st : Engine) : list WorkroomUser :=
  js_sort (fun a b => lastSeen b - lastSeen a)
    (filter (fun user => online user = true) (JsMap.values (users st))).

(** The test [createDirectMessage] applies to find an existing room. *)
Definition is_direct_room (me userId : string) (room : Workroom) : Prop :=
  room_kind room = dm ∧ me ∈ members room ∧ userId ∈ members room ∧
  length (members room) = 2%nat.

(** [command.options?.limit], when the command brings one. *)
Definition requested_limit (command : WorkroomCommand) : option Z :=
  cmd_options command ≫= co_limit.

(** Most recent first. *)
Definition descending {A : Type} (key : A → Z) (l : list A) : Prop :=
  Sorted (fun a b => key b <= key a) l.

(** The engine [visiting] after [alice] was added to [lobby]. *)
Definition hosting : Engine :=
  with_rooms [("lobby", set_members ["bob"; "alice"] lobby)] visiting.


End WorkroomsOps.

(** ** The file-tree adapter (ComposerAdapter): cache, files and snapshot *)

Module ComposerAdapter.

(** The document [save()] writes to [.snapshot.json]. Its [data] is
    [Object.fromEntries(this.data)], an object used as a dictionary. *)
Record snapshot : Type := mkSnapshot {
  snap_version : string;
  snap_timestamp : Z;
  snap_data : gmap string json
}.

(** The cache, the files under the data directory by path, and the snapshot
    file ([None] when it does not exist). Writes to the file system are
    taken to succeed. *)
Record state : Type := mkState {
  data : JsMap.t json;
  files : gmap string string;
  snapshotFile : option snapshot
}.

(** [new ComposerAdapter(config)] over an existing directory. *)
Definition create (fs : gmap string string) (snap : option snapshot) : state :=
  {| data := JsMap.empty; files := fs; snapshotFile := snap |}.

(** [Object.fromEntries(map)]: a later entry of a key wins. *)
Definition fromEntries (entries : JsMap.t json) : gmap string json :=
  fold_left (fun o kv => <[kv.1 := kv.2]> o) entries ∅.

Section Files.

(** The helpers that rest on [path] and [js-yaml]: the file of a key, and
    the text of a value and back. [parseFile] is [None] when it throws.
    [scanDataDir] is the walk that fills the cache from the files. *)
Variable pathToFile : string → string.
Variable serializeFile : string → json → string.
Variable parseFile : string → string → option json.
Variable scanDataDir : gmap string string → JsMap.t json → JsMap.t json.

(** [get(path)]: the cache first; on a miss the file is read, parsed and
    cached; a missing file or a failing parse gives [undefined]. *)
Definition get (path : string) (st : state) : option json * state :=
  match JsMap.get path (data st) with
  | Some v => (Some v, st)
  | None =>
      let filePath := pathToFile path in
      match files st !! filePath with
      | Some content =>
          match parseFile filePath content with
          | Some d =>
              (Some d,
               {| data := JsMap.set path d (data st); files := files st;
                  snapshotFile := snapshotFile st |})
          | None => (None, st)
          end
      | None => (None, st)
      end
  end.

Definition set (pathKey : string) (value : json) (st : state) : state :=
  let filePath := pathToFile pathKey in
  {| data := JsMap.set pathKey value (data st);
     files := <[filePath := serializeFile filePath value]> (files st);
     snapshotFile := snapshotFile st |}.

(** [delete(path)]: the cache entry and the file of this one key. *)
Definition delete (path : string) (st : state) : state :=
  {| data := JsMap.delete path (data st);
     files := base.delete (pathToFile path) (files st);
     snapshotFile := snapshotFile st |}.

Definition exists_ (path : string) (st : state) : bool :=
  JsMap.has path (data st) ||
  bool_decide (is_Some (files st !! pathToFile path)).

(** [save()]; [now] is what [Date.now()] returns. *)
Definition save (now : Z) (st : state) : state :=
  {| data := data st; files := files st;
     snapshotFile := Some (mkSnapshot "1.0.0" now (fromEntries (data st))) |}.

(** [load()]: [new Map(Object.entries(snapshot.data))] when the snapshot is
    there, the directory scan otherwise. *)
Definition load (st : state) : state :=
  match snapshotFile st with
  | Some snap =>
      {| data := map_to_list (snap_data snap); files := files st;
         snapshotFile := snapshotFile st |}
  | None =>
      {| data := scanDataDir (files st) (data st); files := files st;
         snapshotFile := snapshotFile st |}
  end.

(** The process ends and a new adapter connects over the same directory. *)
Definition restart (st : state) : state :=
  load (create (files st) (snapshotFile st)).

End Files.

End ComposerAdapter.

(** * Properties *)

(** ** [JsMap] *)

Module JsMapFacts.

Section Facts.
Context {V : Type}.
Implicit Types (m : JsMap.t V) (k : string) (v : V).

Lemma get_set_eq k v m : JsMap.get k (JsMap.set k v m) = Some v.
Proof.
  induction m as [|[k' v'] m IH]; simpl.
  - by rewrite decide_True.
  - destruct (decide (k' = k)) as [->|Hne]; simpl.
    + by rewrite decide_True.
    + by rewrite decide_False.
Qed.

Lemma get_set_ne k k' v m :
  k ≠ k' → JsMap.get k' (JsMap.set k v m) = JsMap.get k' m.
Proof.
  intros Hne. induction m as [|[k0 v0] m IH]; simpl.
  - by rewrite decide_False.
  - destruct (decide (k0 = k)) as [->|Hk]; simpl.
    + by rewrite !decide_False.
    + by rewrite IH.
Qed.

Lemma get_delete_eq k m : JsMap.get k (JsMap.delete k m) = None.
Proof.
  induction m as [|[k' v'] m IH]; simpl; [done|].
  destruct (decide (k' = k)); simpl; [done|]. by rewrite decide_False.
Qed.

Lemma get_delete_ne k k' m :
  k ≠ k' → JsMap.get k' (JsMap.delete k m) = JsMap.get k' m.
Proof.
  intros Hne. induction m as [|[k0 v0] m IH]; simpl; [done|].
  destruct (decide (k0 = k)) as [->|Hk]; simpl.
  - by rewrite decide_False.
  - by rewrite IH.
Qed.

Lemma get_delete_None k k' m :
  JsMap.get k' m = None → JsMap.get k' (JsMap.delete k m) = None.
Proof.
  intros H. destruct (decide (k = k')) as [->|Hne].
  - apply get_delete_eq.
  - by rewrite get_delete_ne.
Qed.

Lemma set_fresh k v m : JsMap.get k m = None → JsMap.set k v m = m ++ [(k, v)].
Proof.
  induction m as [|[k' v'] m IH]; simpl; [done|].
  destruct (decide (k' = k)); [done|]. intros H. by rewrite IH.
Qed.

Lemma get_None_keys k m : JsMap.get k m = None ↔ k ∉ JsMap.keys m.
Proof.
  unfold JsMap.keys. induction m as [|[k' v'] m IH]; simpl.
  - split; [intros _; apply not_elem_of_nil | done].
  - rewrite not_elem_of_cons. destruct (decide (k' = k)) as [->|Hne].
    + split; [done | intros [? _]; done].
    + rewrite IH. split; [intros ?; split; [congruence | done] | tauto].
Qed.

Lemma get_Some_keys k v m : JsMap.get k m = Some v → k ∈ JsMap.keys m.
Proof.
  intros H. destruct (decide (k ∈ JsMap.keys m)) as [|Hn]; [done|].
  apply get_None_keys in Hn. congruence.
Qed.

Lemma keys_set k v m :
  JsMap.keys (JsMap.set k v m) =
  if decide (k ∈ JsMap.keys m) then JsMap.keys m else JsMap.keys m ++ [k].
Proof.
  unfold JsMap.keys. induction m as [|[k' v'] m IH].
  - cbn [JsMap.set map fst app].
    destruct (decide (k ∈ [])) as [H|H]; [by apply elem_of_nil in H | done].
  - cbn [JsMap.set]. destruct (decide (k' = k)) as [->|Hne]; cbn [map fst].
    + destruct (decide (k ∈ k :: map fst m)) as [|H]; [done|].
      exfalso. apply H. left.
    + rewrite IH.
      destruct (decide (k ∈ map fst m)) as [Hin|Hin];
        destruct (decide (k ∈ k' :: map fst m)) as [Hin'|Hin']; try done.
      * exfalso. apply Hin'. by right.
      * apply elem_of_cons in Hin' as [->|]; done.
Qed.

Lemma keys_set_NoDup k v m :
  NoDup (JsMap.keys m) → NoDup (JsMap.keys (JsMap.set k v m)).
Proof.
  intros Hnd. rewrite keys_set. destruct (decide (k ∈ JsMap.keys m)); [done|].
  apply NoDup_app. split; [done|]. split; [|apply NoDup_singleton].
  intros x Hx Hx'. apply list_elem_of_singleton in Hx'. by subst.
Qed.

Lemma get_elem_of k v m :
  NoDup (JsMap.keys m) → (k, v) ∈ m → JsMap.get k m = Some v.
Proof.
  unfold JsMap.keys. induction m as [|[k' v'] m IH]; simpl.
  - intros _ H. by apply elem_of_nil in H.
  - intros Hnd Hin. apply NoDup_cons in Hnd as [Hk Hnd].
    apply elem_of_cons in Hin as [Heq|Hin].
    + inversion Heq; subst. by rewrite decide_True.
    + rewrite decide_False; [by apply IH|].
      intros ->. apply Hk. apply list_elem_of_fmap. by exists (k, v).
Qed.

End Facts.

End JsMapFacts.

(** ** [JsObject] *)

Module JsObjectFacts.

Section Facts.
Context {V : Type}.
Implicit Types (o : JsObject.t V) (k : string) (v : V).

Lemma set_nil k v : JsObject.set k v [] = [(k, v)].
Proof. unfold JsObject.set. by destruct (JsObject.array_index k). Qed.

(** A name that is no array index goes where [Map.prototype.set] would put
    it. *)
Lemma set_plain k v o :
  JsObject.array_index k = None → JsObject.set k v o = JsMap.set k v o.
Proof. intros H. unfold JsObject.set. by rewrite H. Qed.

Lemma get_insert_index_ne n k k' v o :
  k ≠ k' → JsMap.get k' (JsObject.insert_index n k v o) = JsMap.get k' o.
Proof.
  intros Hne. induction o as [|[k0 v0] o IH]; simpl.
  - by rewrite decide_False.
  - destruct (JsObject.array_index k0) as [n0|]; [destruct (n0 <? n)%N|];
      simpl; rewrite ?IH, ?(decide_False (P := k = k')) by done; done.
Qed.

Lemma get_insert_index_eq n k v o :
  JsMap.get k o = None → JsMap.get k (JsObject.insert_index n k v o) = Some v.
Proof.
  induction o as [|[k0 v0] o IH]; simpl.
  - intros _. by rewrite decide_True.
  - destruct (decide (k0 = k)) as [->|Hne]; [done|]. intros Hget.
    destruct (JsObject.array_index k0) as [n0|]; [destruct (n0 <? n)%N|];
      simpl; rewrite ?decide_True by done; try done.
    rewrite decide_False by done. by apply IH.
Qed.

Lemma get_assigned k v o : JsMap.get k (JsObject.set k v o) = Some v.
Proof.
  unfold JsObject.set. destruct (JsObject.array_index k) as [n|];
    [|apply JsMapFacts.get_set_eq].
  destruct (JsMap.get k o) eqn:Hget; [apply JsMapFacts.get_set_eq|].
  by apply get_insert_index_eq.
Qed.

Lemma get_assigned_other k k' v o :
  k ≠ k' → JsMap.get k' (JsObject.set k v o) = JsMap.get k' o.
Proof.
  intros Hne. unfold JsObject.set.
  destruct (JsObject.array_index k) as [n|];
    [|by apply JsMapFacts.get_set_ne].
  destruct (JsMap.get k o); [by apply JsMapFacts.get_set_ne|].
  by apply get_insert_index_ne.
Qed.

Lemma keys_insert_index n k v o :
  JsMap.keys (JsObject.insert_index n k v o) ≡ₚ k :: JsMap.keys o.
Proof.
  unfold JsMap.keys. induction o as [|[k0 v0] o IH]; simpl; [done|].
  destruct (JsObject.array_index k0) as [n0|]; [destruct (n0 <? n)%N|];
    simpl; try done.
  rewrite IH. apply perm_swap.
Qed.

Lemma keys_assigned_NoDup k v o :
  NoDup (JsMap.keys o) → NoDup (JsMap.keys (JsObject.set k v o)).
Proof.
  intros Hnd. unfold JsObject.set.
  destruct (JsObject.array_index k) as [n|];
    [|by apply JsMapFacts.keys_set_NoDup].
  destruct (JsMap.get k o) eqn:Hget; [by apply JsMapFacts.keys_set_NoDup|].
  rewrite keys_insert_index. apply NoDup_cons. split; [|done].
  by apply JsMapFacts.get_None_keys.
Qed.

Lemma Forall_map_set (P : string * V → Prop) k v (m : JsMap.t V) :
  P (k, v) → Forall P m → Forall P (JsMap.set k v m).
Proof.
  intros Hkv. induction m as [|[k0 v0] m IH]; simpl; intros Hm.
  - by constructor.
  - apply Forall_cons in Hm as [H0 Hm]. destruct (decide (k0 = k)).
    + by constructor.
    + constructor; [done | by apply IH].
Qed.

Lemma Forall_set (P : string * V → Prop) k v o :
  P (k, v) → Forall P o → Forall P (JsObject.set k v o).
Proof.
  intros Hkv Ho. unfold JsObject.set.
  destruct (JsObject.array_index k) as [n|]; [|by apply Forall_map_set].
  destruct (JsMap.get k o); [by apply Forall_map_set|].
  induction Ho as [|[k0 v0] o H0 Ho IH]; simpl; [by constructor|].
  destruct (JsObject.array_index k0) as [n0|]; [destruct (n0 <? n)%N|];
    repeat (constructor; try done).
Qed.

End Facts.

(** Assigning and then mapping the values is mapping and then assigning. *)
Lemma set_fmap {V W : Type} (f : V → W) k v (o : JsObject.t V) :
  (fun kv => (kv.1, f kv.2)) <$> JsObject.set k v o =
  JsObject.set k (f v) ((fun kv => (kv.1, f kv.2)) <$> o).
Proof.
  assert (∀ k', JsMap.get k' ((fun kv => (kv.1, f kv.2)) <$> o) =
                f <$> JsMap.get k' o) as Hget.
  { intros k'. induction o as [|[k0 v0] o IH]; simpl; [done|].
    by destruct (decide (k0 = k')). }
  unfold JsObject.set. rewrite Hget.
  assert ((fun kv => (kv.1, f kv.2)) <$> JsMap.set k v o =
          JsMap.set k (f v) ((fun kv => (kv.1, f kv.2)) <$> o)) as Hset.
  { clear Hget. induction o as [|[k0 v0] o IH]; simpl; [done|].
    destruct (decide (k0 = k)); simpl; [done|]. f_equal. exact IH. }
  destruct (JsObject.array_index k) as [n|]; [|exact Hset].
  destruct (JsMap.get k o); simpl; [exact Hset|].
  clear Hget Hset. induction o as [|[k0 v0] o IH]; simpl; [done|].
  destruct (JsObject.array_index k0) as [n0|]; [destruct (n0 <? n)%N|];
    simpl; try done.
  f_equal. exact IH.
Qed.

End JsObjectFacts.

(** ** The snapshot adapter *)

Module LocalAdapterFacts.
Import LocalAdapter.

Implicit Types (st : state) (p k : string) (v : json).

(** In memory, a value that was set is the value read. *)
Lemma get_set p v st : get p (set p v st) = Some v.
Proof. apply JsMapFacts.get_set_eq. Qed.

Lemma get_set_other p k v st : p ≠ k → get k (set p v st) = get k st.
Proof. apply JsMapFacts.get_set_ne. Qed.

(** The loop of [deleteNestedValue] never brings a key back. *)
Lemma delete_descendants_None prefix ks k (d : JsMap.t json) :
  JsMap.get k d = None →
  JsMap.get k (delete_descendants prefix ks d) = None.
Proof.
  revert d. induction ks as [|key ks IH]; intros d H; simpl; [done|].
  apply IH. destruct (starts_with key prefix); [|done].
  by apply JsMapFacts.get_delete_None.
Qed.

(** It removes every key of the snapshot that starts with the prefix. *)
Lemma delete_descendants_prefixed prefix ks k (d : JsMap.t json) :
  starts_with k prefix = true → k ∈ ks →
  JsMap.get k (delete_descendants prefix ks d) = None.
Proof.
  intros Hpre. revert d. induction ks as [|key ks IH]; intros d Hin; simpl.
  - by apply elem_of_nil in Hin.
  - apply elem_of_cons in Hin as [<-|Hin].
    + rewrite Hpre. apply delete_descendants_None, JsMapFacts.get_delete_eq.
    + by apply IH.
Qed.

(** It leaves every other key alone. *)
Lemma delete_descendants_other prefix ks k (d : JsMap.t json) :
  starts_with k prefix = false →
  JsMap.get k (delete_descendants prefix ks d) = JsMap.get k d.
Proof.
  intros Hpre. revert d. induction ks as [|key ks IH]; intros d; simpl; [done|].
  rewrite IH. destruct (starts_with key prefix) eqn:Hkey; [|done].
  apply JsMapFacts.get_delete_ne. intros ->. congruence.
Qed.

(** C5. After [delete(p)], [exists(p)] is false, [exists(k)] is false for
    every key [k] that starts with [p + "/"], and every key that is neither
    [p] nor starts with [p + "/"] reads as before. *)
Theorem delete_cascades p st :
  exists_ p (delete p st) = false ∧
  (∀ k, starts_with k (p +:+ "/") = true → exists_ k (delete p st) = false) ∧
  (∀ k, k ≠ p → starts_with k (p +:+ "/") = false →
        get k (delete p st) = get k st).
Proof.
  unfold exists_, get, getNestedValue, delete, deleteNestedValue; simpl.
  split; [|split].
  - rewrite delete_descendants_None; [done|]. apply JsMapFacts.get_delete_eq.
  - intros k Hpre.
    destruct (JsMap.get k (JsMap.delete p (data st))) as [v|] eqn:Hk.
    + rewrite delete_descendants_prefixed; [done..|].
      by eapply JsMapFacts.get_Some_keys.
    + by rewrite delete_descendants_None.
  - intros k Hne Hpre. rewrite delete_descendants_other by done.
    by apply JsMapFacts.get_delete_ne.
Qed.

(** C5 on a store holding [a], [a/b], [a/b/c] and [ab]: deleting [a] removes
    the first three and keeps [ab]. *)
Lemma delete_cascades_witness :
  let st := set "ab" (JNum 4) (set "a/b/c" (JNum 3)
              (set "a/b" (JNum 2) (set "a" (JNum 1) (create None)))) in
  exists_ "a" (delete "a" st) = false ∧
  exists_ "a/b/c" (delete "a" st) = false ∧
  get "ab" (delete "a" st) = Some (JNum 4).
Proof.
  intros st. destruct (delete_cascades "a" st) as (H1 & H2 & H3).
  split; [exact H1|]. split; [apply H2; reflexivity|].
  rewrite H3; [reflexivity | discriminate | reflexivity].
Defined.

(** Induction on JSON values, through the lists they nest. *)
Lemma json_nested_ind (P : json → Prop) :
  P JNull → (∀ b, P (JBool b)) → (∀ n, P (JNum n)) → (∀ s, P (JStr s)) →
  (∀ items, Forall P items → P (JArr items)) →
  (∀ fields, Forall (fun kv => P kv.2) fields → P (JObj fields)) →
  ∀ j, P j.
Proof.
  intros Hnull Hbool Hnum Hstr Harr Hobj.
  fix IH 1. intros [| b | n | s | items | fields].
  - exact Hnull.
  - apply Hbool.
  - apply Hnum.
  - apply Hstr.
  - apply Harr. induction items as [|x items IHitems]; constructor.
    + apply IH.
    + exact IHitems.
  - apply Hobj. induction fields as [|[k x] fields IHfields]; constructor.
    + apply IH.
    + exact IHfields.
Qed.

Lemma flat_set k v (d : JsMap.t json) :
  is_plain_object v = false → flat d → flat (JsMap.set k v d).
Proof.
  intros Hv. unfold flat. induction d as [|[k' v'] d IH]; simpl; intros Hd.
  - by constructor.
  - apply Forall_cons in Hd as [Hv' Hd]. destruct (decide (k' = k)).
    + by constructor.
    + constructor; [done | by apply IH].
Qed.

Lemma flat_get k v (d : JsMap.t json) :
  flat d → JsMap.get k d = Some v → is_plain_object v = false.
Proof.
  unfold flat. induction d as [|[k' v'] d IH]; simpl; intros Hd Hget; [done|].
  apply Forall_cons in Hd as [Hv' Hd]. destruct (decide (k' = k)).
  - by simplify_eq.
  - by apply IH.
Qed.

(** [objectToPath] stores primitives and arrays only: it descends into every
    non-array object instead of storing it. *)
Lemma objectToPath_flat obj :
  ∀ prefix d, flat d → flat (objectToPath obj prefix d).
Proof.
  induction obj as [| b | n | s | items IH | fields IH] using json_nested_ind;
    intros prefix d Hd; simpl;
    try (destruct (decide (prefix = "")); [done | by apply flat_set]).
  - generalize 0%nat. revert d Hd.
    induction IH as [|x items Hx _ IHitems]; intros d Hd i; [done|].
    apply IHitems. destruct x; try (by apply flat_set). by apply Hx.
  - revert d Hd.
    induction IH as [|[k x] fields Hx _ IHfields]; intros d Hd; [done|].
    apply IHfields. simpl in Hx.
    destruct x; try (by apply flat_set). by apply Hx.
Qed.

(** Hence no store and no key give back a non-array object after a restart:
    the value that [set] accepted under [p] is gone from [p] whenever it was
    such an object. *)
Lemma restart_reads_no_object st st' p fields :
  persist_and_restart st = Built st' → get p st' ≠ Some (JObj fields).
Proof.
  unfold persist_and_restart, save.
  destruct (pathToObject (data st)) as [dataObj| | |]; [|done..].
  intros [= <-] Hget. unfold restart, load, create in Hget; simpl in Hget.
  assert (is_plain_object (JObj fields) = false) as Habs; [|done].
  eapply flat_get; [|exact Hget]. apply objectToPath_flat. constructor.
Qed.

Lemma split_slash_nonempty s : split_slash s ≠ [].
Proof.
  destruct s as [|c s]; simpl; [done|].
  destruct (Ascii.eqb c "/"); [done|]. by destruct (split_slash s).
Qed.

Lemma concat_split_slash s : String.concat "/" (split_slash s) = s.
Proof.
  induction s as [|c s IH]; [done|]. simpl.
  pose proof (split_slash_nonempty s) as Hne.
  destruct (Ascii.eqb c "/") eqn:Hc.
  - apply Ascii.eqb_eq in Hc as ->.
    destruct (split_slash s) as [|h rest]; [done|].
    simpl in *. by rewrite IH.
  - destruct (split_slash s) as [|h rest]; [done|].
    destruct rest; simpl in *; by rewrite <- IH.
Qed.

(** [pathToObject] on a single entry, and [objectToPath] on what it
    built. *)
Lemma own_walk_cons k k' rest :
  own_walk (k :: k' :: rest) = true →
  JsObject.inherited k = false ∧ own_walk (k' :: rest) = true.
Proof.
  change (own_walk (k :: k' :: rest))
    with (negb (JsObject.inherited k) && own_walk (k' :: rest)).
  intros [Hk Hrest]%andb_true_iff. split; [|done].
  by apply negb_true_iff.
Qed.

Lemma assign_fresh parts v :
  parts ≠ [] → own_walk parts = true →
  assign parts v (Dir []) = Built (nest parts v).
Proof.
  induction parts as [|k rest IH]; [done|]. intros _ Hwalk.
  destruct rest as [|k' rest].
  - simpl in *. apply negb_true_iff, bool_decide_eq_false in Hwalk.
    rewrite decide_False by done. by rewrite JsObjectFacts.set_nil.
  - apply own_walk_cons in Hwalk as [Hk Hrest].
    change (assign (k :: k' :: rest) v (Dir []))
      with (match (if JsObject.inherited k then None else Some (Dir [])) with
            | Some child =>
                match assign (k' :: rest) v child with
                | Built child' => Built (Dir (JsObject.set k child' []))
                | TypeError => TypeError
                | MutatesStored => MutatesStored
                | Inherited => Inherited
                end
            | None => Inherited
            end).
    rewrite Hk, IH by done. by rewrite JsObjectFacts.set_nil.
Qed.

Lemma objectToPath_nest parts v prefix d :
  parts ≠ [] → is_plain_object v = false →
  objectToPath (tree_to_json (nest parts v)) prefix d =
  JsMap.set (rejoin prefix parts) v d.
Proof.
  intros Hne Hv. revert prefix.
  induction parts as [|k rest IH]; [done|]. intros prefix.
  destruct rest as [|k' rest].
  - simpl. by destruct v.
  - specialize (IH ltac:(done) (child_path prefix k)).
    simpl in *. exact IH.
Qed.

Lemma child_path_nonempty prefix k :
  prefix ≠ "" → child_path prefix k = prefix +:+ "/" +:+ k.
Proof. intros H. unfold child_path. by rewrite decide_False. Qed.

Lemma append_nonempty (a b : string) : a ≠ "" → a +:+ b ≠ "".
Proof. by destruct a. Qed.

Lemma append_assoc (a b c : string) : (a +:+ b) +:+ c = a +:+ (b +:+ c).
Proof.
  induction a as [|x a IH]; [done|].
  change (String x ((a +:+ b) +:+ c) = String x (a +:+ b +:+ c)).
  by f_equal.
Qed.

Lemma rejoin_nonempty prefix k rest :
  prefix ≠ "" →
  rejoin prefix (k :: rest) = prefix +:+ "/" +:+ String.concat "/" (k :: rest).
Proof.
  revert prefix k. induction rest as [|k' rest IH]; intros prefix k Hne.
  - simpl. by apply child_path_nonempty.
  - change (rejoin prefix (k :: k' :: rest))
      with (rejoin (child_path prefix k) (k' :: rest)).
    rewrite IH, child_path_nonempty by
      (try rewrite child_path_nonempty by done; by try apply append_nonempty).
    change (String.concat "/" (k :: k' :: rest))
      with (k +:+ "/" +:+ String.concat "/" (k' :: rest)).
    by rewrite !append_assoc.
Qed.

Lemma rejoin_split_slash p :
  starts_with p "/" = false → rejoin "" (split_slash p) = p.
Proof.
  intros Hlead. rewrite <- (concat_split_slash p) at 2.
  destruct p as [|c p]; [done|].
  assert (Ascii.eqb c "/" = false) as Hc.
  { unfold starts_with in Hlead. simpl in Hlead.
    destruct (Ascii.ascii_dec "/" c) as [<-|Hne]; [by destruct p|].
    apply Ascii.eqb_neq. congruence. }
  simpl. rewrite Hc.
  pose proof (split_slash_nonempty p) as Hne.
  destruct (split_slash p) as [|h rest]; [done|].
  destruct rest as [|k rest]; [done|].
  change (rejoin "" (String c h :: k :: rest))
    with (rejoin (String c h) (k :: rest)).
  by rewrite rejoin_nonempty.
Qed.

(** Across a restart a primitive or an array stored alone is read back,
    under a path that does not begin with a slash and whose walk stays in
    the objects it creates. *)
Lemma restart_keeps_leaf p v :
  is_plain_object v = false → starts_with p "/" = false →
  own_walk (split_slash p) = true →
  ∃ st', persist_and_restart (set p v (create None)) = Built st' ∧
         get p st' = Some v.
Proof.
  intros Hv Hlead Hwalk.
  unfold persist_and_restart, save, pathToObject; simpl.
  rewrite assign_fresh by (done || apply split_slash_nonempty).
  eexists. split; [reflexivity|].
  unfold restart, load, get, getNestedValue; simpl.
  rewrite objectToPath_nest by (done || apply split_slash_nonempty).
  rewrite rejoin_split_slash by done. apply JsMapFacts.get_set_eq.
Qed.

(** A leading slash is lost: the key [/a] comes back as [a]. *)
Example restart_drops_leading_slash :
  ∃ st', persist_and_restart (set "/a" (JNum 1) (create None)) = Built st' ∧
         get "/a" st' = None ∧ get "a" st' = Some (JNum 1).
Proof. eexists. repeat split; reflexivity. Qed.

(** C1, the restart half, at the store holding the object [{a: 1}] under
    [x]: [save()] nests it as [{x: {a: 1}}], and [load()] flattens that
    document to the single key [x/a]; after the restart [get("x")] is
    [undefined]. *)
Theorem restart_loses_object_value :
  let v := JObj [("a", JNum 1)] in
  let st := set "x" v (create None) in
  get "x" st = Some v ∧
  ∃ st', persist_and_restart st = Built st' ∧
         dataFile st' = Some (JObj [("x", v)]) ∧
         get "x" st' = None ∧
         get "x/a" st' = Some (JNum 1).
Proof.
  split; [reflexivity|]. eexists. split; [reflexivity|].
  split; [reflexivity|]. split; reflexivity.
Qed.

End LocalAdapterFacts.

(** ** Subscriptions *)

Module SubscriptionsFacts.
Import Subscriptions.

Implicit Types (st : state) (p : string) (cb : callback).

(** Closes a [wf] goal whose three parts are at hand. *)
Ltac wf_kept :=
  split; [|split]; simpl;
  [ assumption | assumption | intros; first [congruence | auto] ].

Lemma wf_create c : wf (create c).
Proof.
  split; [|split]; simpl; [set_solver | | done].
  intros l Hl. by apply elem_of_nil in Hl.
Qed.

Lemma wf_connect st : wf st → wf (connect st).
Proof. intros (Ht & Hl & Hc). wf_kept. Qed.

Lemma class_base_subscribe p cb st : class (base_subscribe p cb st) = class st.
Proof.
  unfold base_subscribe, startPolling; simpl.
  destruct (class st) eqn:Hc; try done.
  by destruct (pollingIntervals st !! p).
Qed.

Lemma class_base_unsubscribe p cb st :
  class (base_unsubscribe p cb st) = class st.
Proof.
  unfold base_unsubscribe, stopPolling.
  destruct (subscribers st !! p); [|done].
  case_decide; simpl; [|done].
  destruct (class st) eqn:Hc; try done.
  by destruct (pollingIntervals st !! p).
Qed.

Lemma wf_base_subscribe p cb st : wf st → wf (base_subscribe p cb st).
Proof.
  intros (Ht & Hl & Hc). unfold base_subscribe, startPolling; simpl.
  destruct (class st) eqn:Hclass; try wf_kept.
  destruct (pollingIntervals st !! p); [wf_kept|].
  split; [|split]; simpl; [|done|congruence].
  intros t [->%elem_of_singleton|Hin%Ht]%elem_of_union; lia.
Qed.

Lemma wf_base_unsubscribe p cb st : wf st → wf (base_unsubscribe p cb st).
Proof.
  intros (Ht & Hl & Hc). unfold base_unsubscribe, stopPolling.
  destruct (subscribers st !! p); [|wf_kept].
  case_decide; simpl; [|wf_kept].
  destruct (class st) eqn:Hclass; try wf_kept.
  destruct (pollingIntervals st !! p); [|wf_kept].
  split; [|split]; simpl; [|done|congruence].
  intros x [Hin _]%elem_of_difference. by apply Ht.
Qed.

(** Well-formedness is an invariant of [subscribe] and of the function it
    returns. *)
Lemma wf_subscribe p cb st h st' :
  wf st → subscribe p cb st = Some (h, st') → wf st'.
Proof.
  intros Hwf. unfold subscribe. destruct (class st) eqn:Hclass.
  - intros [= <- <-].
    pose proof (wf_base_subscribe p cb st Hwf) as (Ht & Hl & Hc).
    split; [|split]; simpl; [done| |done].
    intros l [Hin%Hl| ->%list_elem_of_singleton]%elem_of_app; simpl; lia.
  - intros [= <- <-]. by apply wf_base_subscribe.
  - unfold air_subscribe. destruct (gun st); [|done]. intros [= <- <-].
    destruct Hwf as (Ht & Hl & Hc). split; [|split]; simpl; [done| |done].
    intros l Hin%Hl. lia.
Qed.

Lemma wf_unsubscribe p cb h st : wf st → wf (unsubscribe p cb h st).
Proof.
  intros Hwf. unfold unsubscribe. destruct (class st) eqn:Hclass; simpl.
  - pose proof (wf_base_unsubscribe p cb st Hwf) as (Ht & Hl & Hc).
    split; [|split]; simpl; [done| |done].
    intros l Hin. apply Hl. unfold remove_listener in Hin.
    by apply list_elem_of_filter in Hin as [_ ?].
  - by apply wf_base_unsubscribe.
  - destruct Hwf as (Ht & Hl & Hc). wf_kept.
Qed.

(** Removing a closure that was just registered gives the listeners back. *)
Lemma remove_fresh_listener h p cb (ls : list listener) :
  (∀ l, l ∈ ls → (listener_id l < h)%nat) →
  remove_listener h (ls ++ [mkListener h p cb]) = ls.
Proof.
  intros Hfresh. unfold remove_listener. rewrite filter_app.
  rewrite filter_cons_False by (simpl; intros H; by apply H).
  rewrite filter_nil, app_nil_r.
  induction ls as [|l ls IH]; [done|].
  rewrite filter_cons_True.
  - f_equal. apply IH. intros l' Hl'. apply Hfresh. by right.
  - assert (listener_id l < h)%nat by (apply Hfresh; left). lia.
Qed.

(** [off()] on a node removes the listeners of that node and no other. *)
Lemma gun_off_none p (ls : list listener) :
  filter (fun l => listener_path l = p) (gun_off p ls) = [].
Proof.
  unfold gun_off. induction ls as [|l ls IH]; [done|].
  destruct (decide (listener_path l = p)) as [Hp|Hp].
  - by rewrite filter_cons_False by (intros H; by apply H).
  - rewrite filter_cons_True by done. by rewrite filter_cons_False.
Qed.

Lemma gun_off_other p q (ls : list listener) :
  q ≠ p →
  filter (fun l => listener_path l = q) (gun_off p ls) =
  filter (fun l => listener_path l = q) ls.
Proof.
  intros Hne. unfold gun_off. induction ls as [|l ls IH]; [done|].
  destruct (decide (listener_path l = p)) as [Hp|Hp].
  - rewrite filter_cons_False by (intros H; by apply H).
    rewrite (filter_cons_False (fun l => listener_path l = q))
      by congruence.
    exact IH.
  - rewrite filter_cons_True by done.
    destruct (decide (listener_path l = q)) as [Hq|Hq].
    + rewrite !(filter_cons_True (fun l => listener_path l = q)) by done.
      by f_equal.
    + by rewrite !(filter_cons_False (fun l => listener_path l = q)).
Qed.

Lemma gun_off_unwatched p (ls : list listener) :
  filter (fun l => listener_path l = p) ls = [] → gun_off p ls = ls.
Proof.
  unfold gun_off. induction ls as [|l ls IH]; [done|].
  destruct (decide (listener_path l = p)) as [Hp|Hp].
  - by rewrite filter_cons_True.
  - rewrite filter_cons_False by done. intros Hnone.
    rewrite filter_cons_True by done. f_equal. by apply IH.
Qed.

(** Removing the only subscription of a path: what the base class does. *)
Lemma base_unsubscribe_last p cb subs st :
  subscribers st !! p = Some subs → subs ∖ {[cb]} = ∅ →
  base_unsubscribe p cb st =
  stopPolling p (with_subscribers (delete p (subscribers st)) st).
Proof.
  intros Hp Hlast. unfold base_unsubscribe. rewrite Hp, Hlast.
  by rewrite decide_True by apply size_empty.
Qed.

Lemma base_unsubscribe_several p cb subs st :
  subscribers st !! p = Some subs → subs ∖ {[cb]} ≠ ∅ →
  base_unsubscribe p cb st =
  with_subscribers (<[p := subs ∖ {[cb]}]> (subscribers st)) st.
Proof.
  intros Hp Hmore. unfold base_unsubscribe. rewrite Hp.
  rewrite decide_False; [done|].
  intros Hsize. apply Hmore. apply leibniz_equiv. by apply size_empty_inv.
Qed.

Lemma stopPolling_released p st :
  wf st → class st ≠ Air →
  pollingIntervals (stopPolling p st) !! p = None ∧
  ∀ t, pollingIntervals st !! p = Some t → t ∉ intervals (stopPolling p st).
Proof.
  intros (_ & _ & Hlocal) Hbase. unfold stopPolling.
  destruct (class st) eqn:Hclass; [| |done].
  - rewrite (Hlocal eq_refl). split; [apply lookup_empty|].
    intros t Ht. by rewrite lookup_empty in Ht.
  - destruct (pollingIntervals st !! p) as [t|] eqn:Hp; simpl.
    + split; [apply lookup_delete_eq|]. intros t' [= <-]. set_solver.
    + by split.
Qed.

(** The subscriber set is a set: a callback that is registered on the path
    is not registered again. *)
Lemma base_subscribe_again p cb subs st :
  subscribers st !! p = Some subs → cb ∈ subs →
  subscribers (base_subscribe p cb st) = subscribers st.
Proof.
  intros Hp Hin.
  assert (subscribers (base_subscribe p cb st) =
          <[p := {[cb]} ∪ subs]> (subscribers st)) as ->.
  { unfold base_subscribe, startPolling; simpl. rewrite Hp; simpl.
    destruct (class st); try done.
    by destruct (pollingIntervals st !! p). }
  replace ({[cb]} ∪ subs) with subs by set_solver.
  by apply insert_id.
Qed.

(** One round of subscribe and unsubscribe on a path nobody subscribes to
    gives back the subscribers, the polling table, the live intervals and
    the listeners. *)
Lemma cycle_restores p cb st :
  wf st → subscribers st !! p = None → pollingIntervals st !! p = None →
  gun_callbacks p st = [] → (class st = Air → gun st = true) →
  ∃ st', cycles 1 p cb st = Some st' ∧ same_resources st st' ∧
         class st' = class st ∧ gun st' = gun st.
Proof.
  intros (Ht & Hl & Hlocal) Hsub Hpoll Hgun Hconnected. simpl.
  unfold subscribe, unsubscribe, local_subscribe, local_unsubscribe,
    air_subscribe, air_unsubscribe, base_subscribe, base_unsubscribe,
    startPolling, stopPolling, same_resources, gun_callbacks in *.
  destruct st as [c subs polls ints nt ls nl g gls]; simpl in *.
  rewrite Hsub; simpl.
  assert (({[cb]} ∪ ∅) ∖ {[cb]} = (∅ : gset callback)) as Hempty
    by set_solver.
  destruct c; simpl.
  - rewrite lookup_insert_eq, Hempty, decide_True by apply size_empty.
    simpl. rewrite delete_insert_id by done.
    eexists. split; [reflexivity|]. simpl.
    by rewrite remove_fresh_listener.
  - rewrite Hpoll; simpl.
    rewrite lookup_insert_eq, Hempty, decide_True by apply size_empty.
    simpl. rewrite lookup_insert_eq, !delete_insert_id by done.
    eexists. split; [reflexivity|]. simpl. repeat split; try done.
    assert (nt ∉ ints) by (intros Hin%Ht; lia). set_solver.
  - rewrite (Hconnected eq_refl). simpl.
    eexists. split; [reflexivity|]. simpl. repeat split; try done.
    unfold gun_off. rewrite filter_app.
    rewrite filter_cons_False by (simpl; intros H; by apply H).
    rewrite filter_nil, app_nil_r. apply gun_off_unwatched.
    by apply fmap_nil_inv in Hgun.
Qed.

Lemma cycles_S n p cb st :
  cycles (S n) p cb st =
  match cycles 1 p cb st with
  | Some st' => cycles n p cb st'
  | None => None
  end.
Proof. simpl. by destruct (subscribe p cb st) as [[h st1]|]. Qed.

Lemma wf_cycle p cb st st' : wf st → cycles 1 p cb st = Some st' → wf st'.
Proof.
  intros Hwf. simpl.
  destruct (subscribe p cb st) as [[h st1]|] eqn:Hsub; [|done].
  intros [= <-]. apply wf_unsubscribe. by eapply wf_subscribe.
Qed.

Lemma cycles_restore n p cb st :
  wf st → subscribers st !! p = None → pollingIntervals st !! p = None →
  gun_callbacks p st = [] → (class st = Air → gun st = true) →
  ∃ st', cycles n p cb st = Some st' ∧ same_resources st st'.
Proof.
  revert st. induction n as [|n IH]; intros st Hwf Hsub Hpoll Hgun Hconn.
  - exists st. by repeat split.
  - rewrite cycles_S.
    destruct (cycle_restores p cb st Hwf Hsub Hpoll Hgun Hconn)
      as (st1 & Hrun & (Hs & Hq & Hi & Hc & Hg) & Hclass & Hgun1).
    rewrite Hrun.
    destruct (IH st1) as (st' & Hrun' & (Hs' & Hq' & Hi' & Hc' & Hg')).
    + by eapply wf_cycle.
    + by rewrite Hs.
    + by rewrite Hq.
    + unfold gun_callbacks in *. by rewrite Hg.
    + rewrite Hclass, Hgun1. exact Hconn.
    + exists st'. split; [exact Hrun'|].
      unfold same_resources. by rewrite Hs', Hq', Hi', Hc', Hg'.
Qed.

(** C7, as the code has it. On the adapters that register through
    [BaseMemoryAdapter.subscribe], where the subscriptions of a path are the
    callbacks of a set: removing the last callback of a path removes the
    path's subscriber set and clears the interval allocated for it; removing
    one of several keeps the other callbacks and the polling untouched; and
    subscribing a callback that is registered already adds nothing. On an
    [AirAdapter]: [subscribe] adds one listener on the node of the path and
    touches neither subscriber sets nor timers, it throws while the adapter
    is not connected, and removing the only listener of a node leaves none
    on it and the listeners of every other node in place. On every adapter,
    any number of subscribe-then-unsubscribe rounds on a path without
    subscriptions leaves the subscriber sets, the polling table, the live
    intervals and the listeners as they were. *)
Theorem unsubscribe_releases p cb st :
  wf st →
  (class st ≠ Air →
   (∀ h subs,
      subscribers st !! p = Some subs → subs ∖ {[cb]} = ∅ →
      let st' := unsubscribe p cb h st in
      subscribers st' !! p = None ∧
      pollingIntervals st' !! p = None ∧
      ∀ t, pollingIntervals st !! p = Some t → t ∉ intervals st') ∧
   (∀ h subs,
      subscribers st !! p = Some subs → subs ∖ {[cb]} ≠ ∅ →
      let st' := unsubscribe p cb h st in
      subscribers st' !! p = Some (subs ∖ {[cb]}) ∧
      (∀ cb', cb' ∈ subs → cb' ≠ cb →
              ∃ subs', subscribers st' !! p = Some subs' ∧ cb' ∈ subs') ∧
      pollingIntervals st' = pollingIntervals st ∧
      intervals st' = intervals st) ∧
   (∀ subs,
      subscribers st !! p = Some subs → cb ∈ subs →
      ∃ h st', subscribe p cb st = Some (h, st') ∧
               subscribers st' = subscribers st)) ∧
  (class st = Air →
   (gun st = false → subscribe p cb st = None) ∧
   (gun st = true →
    ∃ h st', subscribe p cb st = Some (h, st') ∧
             gun_callbacks p st' = gun_callbacks p st ++ [cb] ∧
             subscribers st' = subscribers st ∧
             pollingIntervals st' = pollingIntervals st ∧
             intervals st' = intervals st) ∧
   (∀ h,
      gun_callbacks p st = [cb] →
      let st' := unsubscribe p cb h st in
      gun_callbacks p st' = [] ∧
      (∀ q, q ≠ p → gun_callbacks q st' = gun_callbacks q st) ∧
      subscribers st' = subscribers st ∧
      pollingIntervals st' = pollingIntervals st ∧
      intervals st' = intervals st)) ∧
  (subscribers st !! p = None → pollingIntervals st !! p = None →
   gun_callbacks p st = [] → (class st = Air → gun st = true) →
   ∀ n, ∃ st',
     cycles n p cb st = Some st' ∧
     subscribers st' = subscribers st ∧
     pollingIntervals st' = pollingIntervals st ∧
     intervals st' = intervals st ∧
     changeListeners st' = changeListeners st ∧
     gunListeners st' = gunListeners st).
Proof.
  intros Hwf. split; [|split].
  - intros Hbase. split; [|split].
    + intros h subs Hp Hlast st'.
      assert (subscribers (base_unsubscribe p cb st) !! p = None ∧
              pollingIntervals (base_unsubscribe p cb st) !! p = None ∧
              ∀ t, pollingIntervals st !! p = Some t →
                   t ∉ intervals (base_unsubscribe p cb st)) as Hrel.
      { rewrite (base_unsubscribe_last p cb subs) by done.
        set (st1 := with_subscribers (delete p (subscribers st)) st).
        assert (wf st1) as Hwf1 by (destruct Hwf as (? & ? & ?); by split).
        destruct (stopPolling_released p st1 Hwf1 Hbase) as [Hnone Hgone].
        split; [|split; [done|]].
        - unfold stopPolling, st1; simpl. destruct (class st); simpl;
            try apply lookup_delete_eq.
          destruct (pollingIntervals st !! p); simpl; apply lookup_delete_eq.
        - intros t Htp. by apply Hgone. }
      subst st'. unfold unsubscribe. by destruct (class st).
    + intros h subs Hp Hmore st'.
      assert (base_unsubscribe p cb st =
              with_subscribers (<[p := subs ∖ {[cb]}]> (subscribers st)) st)
        as Hrun by by apply base_unsubscribe_several.
      assert (subscribers st' = <[p := subs ∖ {[cb]}]> (subscribers st) ∧
              pollingIntervals st' = pollingIntervals st ∧
              intervals st' = intervals st) as (Hs & Hq & Hi).
      { subst st'. unfold unsubscribe, local_unsubscribe.
        destruct (class st); [rewrite Hrun; done..|done]. }
      rewrite Hs, lookup_insert_eq. split; [done|]. split; [|done].
      intros cb' Hin Hne. exists (subs ∖ {[cb]}). split; [done | set_solver].
    + intros subs Hp Hin.
      pose proof (base_subscribe_again p cb subs st Hp Hin) as Hagain.
      unfold subscribe. destruct (class st); [| |done].
      * eexists _, _. split; [reflexivity|]. exact Hagain.
      * eexists _, _. split; [reflexivity|]. exact Hagain.
  - intros Hair. unfold subscribe, unsubscribe, air_subscribe. rewrite Hair.
    split; [|split].
    + by intros ->.
    + intros ->. eexists _, _. split; [reflexivity|].
      split; [|done]. unfold gun_callbacks; simpl.
      rewrite filter_app, fmap_app. f_equal.
      by rewrite filter_cons_True.
    + intros _ _. simpl. split; [|split; [|done]].
      * unfold gun_callbacks; simpl. by rewrite gun_off_none.
      * intros q Hne. unfold gun_callbacks; simpl.
        by rewrite gun_off_other.
  - intros Hsub Hpoll Hgun Hconn n.
    destruct (cycles_restore n p cb st Hwf Hsub Hpoll Hgun Hconn)
      as (st' & Hrun & Hsame).
    by exists st'.
Qed.

(** C7 on a [ComposerAdapter], where two callbacks subscribe to [agents] and
    both unsubscribe (after the first the interval is alive, after the
    second it is cleared), and on a connected [AirAdapter], where three
    rounds on [agents] leave no listener. *)
Lemma unsubscribe_releases_witness :
  let st := base_subscribe "agents" 2%nat
              (base_subscribe "agents" 1%nat (create Composer)) in
  let st1 := unsubscribe "agents" 1%nat 0%nat st in
  let st2 := unsubscribe "agents" 2%nat 0%nat st1 in
  (subscribers st1 !! "agents" = Some {[2%nat]} ∧
   intervals st1 = intervals st) ∧
  (subscribers st2 !! "agents" = None ∧
   pollingIntervals st2 !! "agents" = None ∧
   0%nat ∉ intervals st2) ∧
  (∃ st', cycles 3 "agents" 1%nat (connect (create Air)) = Some st' ∧
          gunListeners st' = []).
Proof.
  intros st st1 st2.
  assert (wf st) as Hwf by (do 2 apply wf_base_subscribe; apply wf_create).
  assert (wf st1) as Hwf1 by by apply wf_unsubscribe.
  split; [|split].
  - destruct (unsubscribe_releases "agents" 1%nat st Hwf) as (H & _ & _).
    destruct H as (_ & H & _); [done|].
    destruct (H 0%nat {[2%nat; 1%nat]}) as (H1 & _ & _ & H4).
    + by vm_compute.
    + by vm_compute.
    + split; [|exact H4]. unfold st1. rewrite H1. reflexivity.
  - destruct (unsubscribe_releases "agents" 2%nat st1 Hwf1) as (H & _ & _).
    destruct H as (H & _ & _); [done|].
    destruct (H 0%nat {[2%nat]}) as (H1 & H2 & H3).
    + by vm_compute.
    + by vm_compute.
    + unfold st2. split; [exact H1|]. split; [exact H2|]. apply H3.
      by vm_compute.
  - destruct (unsubscribe_releases "agents" 1%nat (connect (create Air))
                (wf_connect _ (wf_create Air))) as (_ & _ & H).
    destruct (H eq_refl eq_refl eq_refl (fun _ => eq_refl) 3%nat)
      as (st' & Hrun & _ & _ & _ & _ & Hg).
    exists st'. split; [exact Hrun | exact Hg].
Defined.

(** C7 as stated fails twice. On a [ComposerAdapter], subscribe the same
    callback twice to [agents] and call the first of the two functions
    returned: the subscriber set of [agents] is gone and its interval
    cleared, while the second subscription has not been removed. On a
    connected [AirAdapter], subscribe two callbacks to [agents] and call the
    function returned to the first: the second callback is no longer
    listening either. *)
Lemma unsubscribe_drops_other_subscription :
  (∃ h1 st1 h2 st2,
     subscribe "agents" 1%nat (create Composer) = Some (h1, st1) ∧
     subscribe "agents" 1%nat st1 = Some (h2, st2) ∧
     (∃ t, pollingIntervals st2 !! "agents" = Some t ∧ t ∈ intervals st2) ∧
     let st' := unsubscribe "agents" 1%nat h1 st2 in
     subscribers st' !! "agents" = None ∧
     pollingIntervals st' !! "agents" = None ∧
     intervals st' = ∅) ∧
  (∃ h1 st1 h2 st2,
     subscribe "agents" 1%nat (connect (create Air)) = Some (h1, st1) ∧
     subscribe "agents" 2%nat st1 = Some (h2, st2) ∧
     gun_callbacks "agents" st2 = [1%nat; 2%nat] ∧
     gun_callbacks "agents" (unsubscribe "agents" 1%nat h1 st2) = []).
Proof.
  split.
  - eexists _, _, _, _. split; [reflexivity|]. split; [reflexivity|].
    split; [exists 0%nat; by vm_compute|]. by vm_compute.
  - eexists _, _, _, _. split; [reflexivity|]. split; [reflexivity|].
    split; reflexivity.
Qed.

End SubscriptionsFacts.

(** ** The adapter registry *)

Module AdapterRegistryFacts.
Import AdapterRegistry.

(** An entry of the map after [set] is the new one or an old one. *)
Lemma elem_of_set {V : Type} (k n : string) (v a : V) (m : JsMap.t V) :
  (n, a) ∈ JsMap.set k v m → (n, a) = (k, v) ∨ (n, a) ∈ m.
Proof.
  induction m as [|[k' v'] m IH]; simpl.
  - intros H%list_elem_of_singleton. by left.
  - destruct (decide (k' = k)) as [->|Hne].
    + intros [H|H]%elem_of_cons; [by left | right; by right].
    + intros [H|H]%elem_of_cons; [right; rewrite H; left|].
      destruct (IH H) as [?|?]; [by left | right; by right].
Qed.

Lemma register_keyed_by_name (x : MemoryAdapter) (st : state) :
  keyed_by_name st → keyed_by_name (register x st).
Proof.
  intros [Hnd Hname]. split; simpl.
  - by apply JsMapFacts.keys_set_NoDup.
  - intros n a [H|H]%elem_of_set; [by simplify_eq | by apply Hname].
Qed.

Lemma register_all_keys (l : list MemoryAdapter) :
  keyed_by_name (register_all l).
Proof.
  unfold register_all.
  assert (keyed_by_name initial) as Hinit.
  { split; [constructor|]. intros n a H. by apply elem_of_nil in H. }
  revert Hinit. generalize initial.
  induction l as [|x l IH]; intros st Hst; simpl; [done|].
  by apply IH, register_keyed_by_name.
Qed.

(** The loop never rejects, and adds the reported entry of each adapter it
    visits. *)
Lemma healthCheck_loop_resolves (entries : JsMap.t MemoryAdapter)
  (results0 : gmap string AdapterHealth) :
  NoDup (JsMap.keys entries) →
  ∃ results,
    healthCheck_loop entries results0 = Resolved results ∧
    ∀ n, results !! n =
         match JsMap.get n entries with
         | Some a => Some (reported a)
         | None => results0 !! n
         end.
Proof.
  unfold JsMap.keys. revert results0.
  induction entries as [|[k a] entries IH]; intros results0 Hnd; simpl.
  - by exists results0.
  - apply NoDup_cons in Hnd as [Hk Hnd]. simpl in Hk.
    destruct (IH (<[k := reported a]> results0) Hnd) as (results & Hrun & Hget).
    exists results. split.
    + unfold reported in Hrun. by destruct (health a).
    + intros n. rewrite Hget. destruct (decide (k = n)) as [->|Hne].
      * apply JsMapFacts.get_None_keys in Hk. rewrite Hk.
        by rewrite lookup_insert_eq.
      * destruct (JsMap.get n entries); [done|].
        by rewrite lookup_insert_ne.
Qed.

(** C8. Whatever adapters were registered, [healthCheck()] resolves (never
    rejects) with a map that has exactly the registered names as keys, one
    entry each; an adapter whose [health()] rejects is reported
    ['unhealthy'] with the error's message, and the health an adapter
    resolves with is passed through unchanged. *)
Theorem healthCheck_reports_all (l : list MemoryAdapter) :
  let reg := register_all l in
  ∃ results,
    healthCheck reg = Resolved results ∧
    dom results = list_to_set (JsMap.keys (adapters reg)) ∧
    size results = JsMap.size (adapters reg) ∧
    ∀ n a, JsMap.get n (adapters reg) = Some a →
      name a = n ∧
      match health a with
      | Resolved h => results !! n = Some h
      | Rejected message =>
          results !! n =
          Some {| status := unhealthy; latency := -1; storage_used := 0;
                  storage_available := 0; error := Some message |}
      end.
Proof.
  intros reg. destruct (register_all_keys l) as [Hnd Hname].
  fold reg in Hnd, Hname.
  destruct (healthCheck_loop_resolves (adapters reg) ∅ Hnd)
    as (results & Hrun & Hget).
  assert (dom results = list_to_set (JsMap.keys (adapters reg))) as Hdom.
  { apply set_eq. intros n. rewrite elem_of_dom, elem_of_list_to_set, Hget.
    destruct (JsMap.get n (adapters reg)) as [a|] eqn:Hn.
    - split; [intros _ | by eauto]. by eapply JsMapFacts.get_Some_keys.
    - rewrite lookup_empty. split; [by intros [? ?]|].
      intros Hin. by apply JsMapFacts.get_None_keys in Hn. }
  exists results. split; [exact Hrun|]. split; [exact Hdom|]. split.
  - rewrite <- size_dom, Hdom, size_list_to_set by done.
    unfold JsMap.size, JsMap.keys. by rewrite length_map.
  - intros n a Hn. split.
    + apply Hname. clear -Hn. induction (adapters reg) as [|[k v] m IH];
        simpl in Hn; [done|].
      destruct (decide (k = n)) as [->|]; [simplify_eq; left | right; auto].
    + specialize (Hget n). rewrite Hn in Hget. unfold reported in Hget.
      by destruct (health a).
Qed.

(** C8 on the registry of the spec's example: [local] is reachable and
    answers ['healthy'], the probe of [air] throws. *)
Lemma healthCheck_reports_all_witness :
  let ok := {| status := healthy; latency := 3; storage_used := 120;
               storage_available := 104857600; error := None |} in
  let reg := register_all [mkAdapter "local" (Resolved ok);
                           mkAdapter "air" (Rejected "Air not connected")] in
  ∃ results,
    healthCheck reg = Resolved results ∧
    size results = 2%nat ∧
    results !! "local" = Some ok ∧
    status <$> results !! "air" = Some unhealthy ∧
    (results !! "air" ≫= error) = Some "Air not connected".
Proof.
  intros ok reg.
  destruct (healthCheck_reports_all
              [mkAdapter "local" (Resolved ok);
               mkAdapter "air" (Rejected "Air not connected")])
    as (results & Hrun & _ & Hsize & Hget).
  exists results. split; [exact Hrun|]. split; [exact Hsize|].
  destruct (Hget "local" (mkAdapter "local" (Resolved ok)) eq_refl)
    as [_ Hlocal].
  destruct (Hget "air" (mkAdapter "air" (Rejected "Air not connected"))
              eq_refl) as [_ Hair].
  simpl in Hlocal, Hair. rewrite Hlocal, Hair. done.
Defined.

End AdapterRegistryFacts.

(** ** Arrays *)

Module ArrayFacts.

Section Sort.
Context {A : Type} (cmp : A → A → Z).

Lemma js_sort_insert_perm x l : js_sort_insert cmp x l ≡ₚ x :: l.
Proof.
  induction l as [|y l IH]; simpl; [done|].
  destruct (cmp x y <=? 0)%Z; [done|]. rewrite IH. apply Permutation_swap.
Qed.

Lemma js_sort_perm l : js_sort cmp l ≡ₚ l.
Proof.
  induction l as [|x l IH]; simpl; [done|].
  by rewrite js_sort_insert_perm, IH.
Qed.

(** Sorting by a key: the comparator is the difference of the keys. *)
Context (key : A → Z) (Hcmp : ∀ a b, cmp a b = key a - key b).

Lemma js_sort_insert_sorted x l :
  Sorted Z.le (key <$> l) → Sorted Z.le (key <$> js_sort_insert cmp x l).
Proof.
  induction l as [|y l IH]; simpl; intros Hl.
  - repeat constructor.
  - apply Sorted_inv in Hl as [Hl Hy].
    destruct (cmp x y <=? 0)%Z eqn:Hxy; simpl.
    + apply Z.leb_le in Hxy. rewrite Hcmp in Hxy.
      constructor; [by constructor|]. constructor. lia.
    + apply Z.leb_gt in Hxy. rewrite Hcmp in Hxy.
      constructor; [by apply IH|].
      destruct l as [|z l]; simpl in *.
      * constructor. lia.
      * destruct (cmp x z <=? 0)%Z; simpl; constructor;
          [lia | by apply HdRel_inv in Hy].
Qed.

Lemma js_sort_sorted l : Sorted Z.le (key <$> js_sort cmp l).
Proof.
  induction l as [|x l IH]; simpl; [constructor|].
  by apply js_sort_insert_sorted.
Qed.

End Sort.

Lemma Sorted_drop {A : Type} (R : relation A) n (l : list A) :
  Sorted R l → Sorted R (drop n l).
Proof.
  revert l. induction n as [|n IH]; intros [|x l] Hl; simpl; try done.
  apply IH. by apply Sorted_inv in Hl as [? _].
Qed.

(** [slice(-n)] for a positive [n]: the last [n] items, all of them when
    there are fewer. *)
Lemma js_slice_last {A : Type} (n : Z) (l : list A) :
  0 < n → js_slice (- n) l = drop (length l - Z.to_nat n) l.
Proof.
  intros Hn. unfold js_slice.
  destruct (- n <? 0)%Z eqn:Hneg; [|apply Z.ltb_ge in Hneg; lia].
  f_equal. lia.
Qed.

End ArrayFacts.

(** ** The Workrooms engine *)

Module WorkroomsFacts.
Import Workrooms.

(** Runs a method of the engine: unfolds the monad and the store and event
    primitives. *)
Ltac run :=
  unfold bind, ret, throw, read, modify, emit, put, update_room,
    write_presence, updatePresence, Date_now, new_uuid; simpl.

Section Facts.
Variable now : nat → Z.
Variable uuid : nat → string.

(** C3. In an existing room whose members do not include the caller,
    [sendMessage] throws the not-a-member error and leaves the whole engine
    as it was: no message is written to the store, and the room keeps its
    [messageCount] and [lastActivity]. *)
Theorem sendMessage_non_member roomId content to thread atts room st :
  JsMap.get roomId (rooms st) = Some room →
  user_id (currentUser st) ∉ members room →
  sendMessage now uuid roomId content to thread atts st =
    (Thrown NotMemberError, st) ∧
  error_message NotMemberError = "Not a member of this room".
Proof.
  intros Hroom Hout. split; [|done].
  unfold sendMessage, includes. run. rewrite Hroom.
  by rewrite bool_decide_eq_false_2.
Qed.

(** C9. For a room id the engine does not know, [joinRoom] throws
    ['Room not found'], while [leaveRoom] returns normally and changes
    nothing: no write to the store, no presence removed, no event. *)
Theorem join_throws_leave_returns roomId st :
  JsMap.get roomId (rooms st) = None →
  joinRoom now roomId st = (Thrown RoomNotFound, st) ∧
  error_message RoomNotFound = "Room not found" ∧
  leaveRoom now roomId st = (Returned tt, st).
Proof.
  intros Hnone. unfold joinRoom, leaveRoom. run. by rewrite Hnone.
Qed.

End Facts.

(** C3 in the engine [visiting]: [alice] sends to [lobby], which she never
    joined. *)
Lemma sendMessage_non_member_witness :
  sendMessage ticks serial "lobby" "hi" None None None visiting =
    (Thrown NotMemberError, visiting) ∧
  messageCount <$> JsMap.get "lobby" (rooms visiting) = Some 0.
Proof.
  split; [|reflexivity].
  apply (sendMessage_non_member ticks serial "lobby" "hi" None None None
           lobby visiting).
  - reflexivity.
  - simpl. by intros H%list_elem_of_singleton.
Defined.

(** C9 in the engine [visiting], for the unknown room [attic]. *)
Lemma join_throws_leave_returns_witness :
  joinRoom ticks "attic" visiting = (Thrown RoomNotFound, visiting) ∧
  leaveRoom ticks "attic" visiting = (Returned tt, visiting).
Proof.
  destruct (join_throws_leave_returns ticks "attic" visiting) as (H1 & _ & H2).
  - reflexivity.
  - by split.
Defined.

(** C10. With a positive limit [getRoomMessages] returns the last
    [min(limit, length)] messages of the room's sequence, in the order of
    that sequence; with no limit it returns the whole sequence; for a room
    without recorded messages it returns the empty list. *)
Theorem getRoomMessages_most_recent roomId st :
  let all := default [] (JsMap.get roomId (messages st)) in
  (∀ limit, 0 < limit →
     let recent := getRoomMessages roomId (Some limit) st in
     recent = drop (length all - Z.to_nat limit) all ∧
     recent `suffix_of` all ∧
     length recent = (Z.to_nat limit `min` length all)%nat ∧
     (sorted_by_timestamp all → sorted_by_timestamp recent)) ∧
  getRoomMessages roomId None st = all ∧
  (all = [] → ∀ limit, getRoomMessages roomId limit st = []).
Proof.
  intros all. split; [|split].
  - intros limit Hpos recent.
    assert (recent = drop (length all - Z.to_nat limit) all) as ->.
    { subst recent. unfold getRoomMessages. fold all.
      rewrite decide_False by lia. by apply ArrayFacts.js_slice_last. }
    split; [done|]. split; [apply suffix_drop|]. split.
    + rewrite length_drop. lia.
    + unfold sorted_by_timestamp. rewrite fmap_drop.
      apply ArrayFacts.Sorted_drop.
  - done.
  - intros Hempty limit. unfold getRoomMessages. fold all. rewrite Hempty.
    destruct limit as [l|]; [|done]. destruct (decide (l = 0)); [done|].
    unfold js_slice. by rewrite drop_nil.
Qed.

(** C10 on a room with three messages and a limit of two. *)
Lemma getRoomMessages_most_recent_witness :
  let st := with_messages
              [("lobby", [note "a" 1; note "b" 2; note "c" 3])]
              (fresh alice) in
  getRoomMessages "lobby" (Some 2) st = [note "b" 2; note "c" 3] ∧
  getRoomMessages "attic" (Some 2) st = [].
Proof.
  intros st.
  destruct (getRoomMessages_most_recent "lobby" st) as (H & _ & _).
  destruct (H 2) as (-> & _); [lia|].
  destruct (getRoomMessages_most_recent "attic" st) as (_ & _ & H').
  rewrite H' by reflexivity. split; reflexivity.
Defined.

Section Create.
Variable now : nat → Z.
Variable uuid : nat → string.

(** [createRoom] step by step: it always returns, with the room above, and
    leaves this engine. *)
Lemma createRoom_run options st :
  let id := uuid (uuid_reads st) in
  let me := user_id (currentUser st) in
  let c := clock_reads st in
  let room := created_room now uuid options st in
  createRoom now uuid options st =
  (Returned room,
   {| currentUser := currentUser st;
      rooms := JsMap.set id room (rooms st);
      messages := JsMap.set id [] (messages st);
      presence := presence st;
      users := users st;
      air := air st ++
        [mkPut ["workrooms"; id] (PutRoom room);
         mkPut ["workroom-presence"; id; me]
               (PutPresence
                  (mkPresence id me (now (S (S c))) None
                              (now (S (S (S c))))))];
      emitted := emitted st ++
        [mkEvent ev_join id (Some me) (DataUser me) (now (S (S (S (S c)))));
         mkEvent ev_room_created id (Some me) (DataRoom room)
                 (now (S (S (S (S (S c))))))];
      clock_reads := S (S (S (S (S (S c)))));
      uuid_reads := S (uuid_reads st) |}).
Proof.
  intros id me c room. unfold createRoom, joinRoom, includes. run.
  fold id me c. change (mkRoom id _ _ _ _ _ _ _ _ _ _ _ _ _ _ _ _) with room.
  rewrite JsMapFacts.get_set_eq. simpl.
  rewrite bool_decide_eq_true_2 by (simpl; left). simpl.
  rewrite JsMapFacts.get_set_eq. simpl.
  by rewrite <- !app_assoc.
Qed.

(** C6. Whatever the options, also when they bring a [members] list,
    [createRoom] returns a room under the identity just drawn from [uuid()],
    with the creator as the only member and the only moderator; the room is
    written to the store and kept in the engine, and the creator is then
    joined: her presence record is written and ['join'] is emitted, before
    ['room_created'] and the return. *)
Theorem createRoom_creator_sole_member options st :
  let id := uuid (uuid_reads st) in
  let me := user_id (currentUser st) in
  ∃ room st',
    createRoom now uuid options st = (Returned room, st') ∧
    room_id room = id ∧ uuid_reads st' = S (uuid_reads st) ∧
    creator room = me ∧ members room = [me] ∧ moderators room = [me] ∧
    JsMap.get id (rooms st') = Some room ∧
    (JsMap.get id (rooms st) = None →
     rooms st' = rooms st ++ [(id, room)]) ∧
    (∃ joined active,
       air st' = air st ++
         [mkPut ["workrooms"; id] (PutRoom room);
          mkPut ["workroom-presence"; id; me]
                (PutPresence (mkPresence id me joined None active))]) ∧
    (∃ t1 t2,
       emitted st' = emitted st ++
         [mkEvent ev_join id (Some me) (DataUser me) t1;
          mkEvent ev_room_created id (Some me) (DataRoom room) t2]).
Proof.
  intros id me. eexists _, _. split; [apply createRoom_run|]. simpl.
  repeat split; try done.
  - apply JsMapFacts.get_set_eq.
  - intros Hfresh. by apply JsMapFacts.set_fresh.
  - by eexists _, _.
  - by eexists _, _.
Qed.

(** The direct-message room: the [members] list that [createDirectMessage]
    passes is not read, so the new room has the creator alone. *)
Lemma createDirectMessage_members userId other st :
  JsMap.get userId (users st) = Some other →
  Forall (fun room => room_kind room ≠ dm) (JsMap.values (rooms st)) →
  ∃ room st',
    createDirectMessage now uuid userId st = (Returned room, st') ∧
    room_kind room = dm ∧
    members room = [user_id (currentUser st)].
Proof.
  intros Hother Hnodm. unfold createDirectMessage. run. rewrite Hother.
  assert (list_find
            (fun room : Workroom =>
               room_kind room = dm ∧ user_id (currentUser st) ∈ members room ∧
               userId ∈ members room ∧ length (members room) = 2%nat)
            (JsMap.values (rooms st)) = None) as ->.
  { apply list_find_None. eapply Forall_impl; [exact Hnodm|]. simpl.
    intros room Hne [Hdm _]. done. }
  simpl. rewrite createRoom_run. by eexists _, _.
Qed.

End Create.

(** C6 on the options [createDirectMessage] passes, in a new engine run by
    [alice]: the members list of two is not read, and the room is hers
    alone. *)
Lemma createRoom_creator_sole_member_witness :
  let options :=
    mkOptions "Alice ⟷ Bob" dm (Some "Direct message") (Some true)
              (Some ["alice"; "bob"]) None None None None None in
  ∃ room st',
    createRoom ticks serial options (fresh alice) = (Returned room, st') ∧
    room_id room = "room-0" ∧
    members room = ["alice"] ∧ moderators room = ["alice"] ∧
    JsMap.get "room-0" (rooms st') = Some room.
Proof.
  intros options.
  destruct (createRoom_creator_sole_member ticks serial options (fresh alice))
    as (room & st' & Hrun & Hid & _ & _ & Hmembers & Hmods & Hget & _).
  exists room, st'. repeat split; assumption.
Defined.

Section Dispatch.
Variable now : nat → Z.
Variable uuid : nat → string.

Lemma bind_ret_map {A B : Type} (m : M A) (f : A → B) st :
  bind m (fun a => ret (f a)) st = map_returned f (m st).
Proof. unfold bind, ret, map_returned. by destruct (m st) as [[a|e] st']. Qed.

(** C4, as the code has it. For the six actions [handleCommand] runs the
    corresponding primitive and wraps what it returns; when the primitive
    throws, [handleCommand] returns no failure value: the same error leaves
    it, with the engine as the primitive left it. It is the server's
    [handleWorkroomCommand] that catches the error and sends the structured
    failure, the action name with the error's message. *)
Theorem handleCommand_dispatches command st :
  let roomId := cmd_roomId command in
  handleCommand now uuid command st =
    match cmd_action command with
    | a_create =>
        map_returned ResRoom
          (createRoom now uuid (create_options command) st)
    | a_join =>
        map_returned (fun _ => ResSuccessText ("Joined room " +:+ roomId))
          (joinRoom now roomId st)
    | a_leave =>
        map_returned (fun _ => ResSuccessText ("Left room " +:+ roomId))
          (leaveRoom now roomId st)
    | a_message =>
        map_returned ResSuccessMessage
          (sendMessage now uuid roomId (cmd_message command)
             (cmd_to command) None None st)
    | a_list => (Returned (ResRooms (getUserRooms st)), st)
    | a_history =>
        (Returned
           (ResMessages
              (getRoomMessages roomId (Some (history_limit command)) st)),
         st)
    | a_invite | a_kick => (Thrown (UnknownCommand (cmd_action command)), st)
    end ∧
  ∀ e st',
    handleCommand now uuid command st = (Thrown e, st') →
    handleWorkroomCommand now uuid command (Some st) =
      (WsWorkroomError (cmd_action command) (error_message e), Some st').
Proof.
  intros roomId. split.
  - unfold handleCommand. fold roomId.
    destruct (cmd_action command); try apply bind_ret_map; done.
  - intros e st' Hthrown. unfold handleWorkroomCommand. by rewrite Hthrown.
Qed.

End Dispatch.

(** C4 in the engine [visiting]: joining the unknown room [attic] makes
    [handleCommand] throw, and the server answers with the structured
    failure. *)
Lemma handleCommand_dispatches_witness :
  let command := mkCommand a_join "attic" "" None None in
  handleCommand ticks serial command visiting =
    (Thrown RoomNotFound, visiting) ∧
  handleWorkroomCommand ticks serial command (Some visiting) =
    (WsWorkroomError a_join "Room not found", Some visiting).
Proof.
  intros command.
  destruct (handleCommand_dispatches ticks serial command visiting)
    as [Hrun Hwrap].
  split; [rewrite Hrun; reflexivity|].
  apply (Hwrap RoomNotFound visiting). rewrite Hrun. reflexivity.
Defined.

(** C4 as stated fails: a join of an unknown room makes the dispatched
    [joinRoom] fail, and [handleCommand] then returns nothing at all, a
    structured failure included: the error escapes it. *)
Lemma handleCommand_failure_escapes :
  let command := mkCommand a_join "attic" "" None None in
  joinRoom ticks "attic" visiting = (Thrown RoomNotFound, visiting) ∧
  ¬ ∃ result st',
      handleCommand ticks serial command visiting = (Returned result, st').
Proof.
  intros command. split; [reflexivity|].
  intros (result & st' & H). vm_compute in H. discriminate.
Qed.

(** *** The message cache of a room *)



(** A new id: the message is appended and the list sorted again. *)
Lemma upsert_new message msgId (l : list WorkroomMessage) :
  Forall (fun m => msg_id m ≠ msgId) l →
  upsert message msgId l =
  js_sort (fun a b => timestamp a - timestamp b) (l ++ [message]).
Proof.
  intros Hnew. unfold upsert, js_findIndex.
  by rewrite (proj2 (list_find_None _ _) Hnew).
Qed.

(** A known id: the entry is overwritten where it stands. *)
Lemma upsert_known message msgId (l : list WorkroomMessage) :
  ¬ Forall (fun m => msg_id m ≠ msgId) l →
  ∃ i old, l !! i = Some old ∧ msg_id old = msgId ∧
           upsert message msgId l = <[i := message]> l.
Proof.
  intros Hknown. unfold upsert, js_findIndex.
  destruct (list_find (fun m => msg_id m = msgId) l) as [[i old]|] eqn:Hfind.
  - apply list_find_Some in Hfind as (Hi & Hold & _). by exists i, old.
  - by apply list_find_None in Hfind.
Qed.



Section Deliveries.
Variable now : nat → Z.

(** What a delivery does to the sequence [getRoomMessages] exposes. *)
Lemma getRoomMessages_deliver roomId d st :
  getRoomMessages roomId None (deliver now st d) =
  match d_message d with
  | Some message =>
      if decide (d_room d = roomId)
      then upsert message (d_key d) (getRoomMessages roomId None st)
      else getRoomMessages roomId None st
  | None => getRoomMessages roomId None st
  end.
Proof.
  unfold deliver, onMessage, getRoomMessages.
  destruct (d_message d) as [message|]; [|done]. run.
  destruct (decide (d_room d = roomId)) as [<-|Hne].
  - by rewrite JsMapFacts.get_set_eq.
  - by rewrite JsMapFacts.get_set_ne.
Qed.


End Deliveries.



End WorkroomsFacts.

(** ** The snapshot adapter: the rest of its operations *)

Module LocalAdapterOpsFacts.
Import LocalAdapter LocalAdapterOps.

Implicit Types (st : state) (p k : string) (v : json).

Lemma keep_last_100_length (l : list json) :
  length (keep_last_100 l) = (length l `min` 100)%nat.
Proof.
  unfold keep_last_100. destruct (100 <? length l)%nat eqn:H.
  - apply Nat.ltb_lt in H. rewrite length_drop. lia.
  - apply Nat.ltb_ge in H. lia.
Qed.

Lemma keep_last_100_suffix (l : list json) : keep_last_100 l `suffix_of` l.
Proof.
  unfold keep_last_100. destruct (100 <? length l)%nat; [apply suffix_drop|done].
Qed.

Lemma keep_last_100_last (l : list json) x :
  last (keep_last_100 (l ++ [x])) = Some x.
Proof.
  destruct (keep_last_100_suffix (l ++ [x])) as [pre Hpre].
  pose proof (keep_last_100_length (l ++ [x])) as Hlen.
  rewrite length_app in Hlen. simpl in Hlen.
  destruct (keep_last_100 (l ++ [x])) as [|y kept _] using rev_ind.
  - simpl in Hlen. lia.
  - rewrite app_assoc in Hpre. apply app_inj_tail in Hpre as [_ ->].
    apply last_snoc.
Qed.

(** X1. [publish] on a channel whose key holds an array, or nothing: the
    entry is the message with its [timestamp] set, it comes last, the
    history is the tail of the old history and the entry, at most 100 long,
    and no other key changes. *)
Theorem publish_keeps_last_100 channel message now st old :
  get (channel_path channel) st = Some (JArr old) ∨
  (get (channel_path channel) st = None ∧ old = []) →
  let entry := JObj (JsMap.set "timestamp" (JNum now) message) in
  ∃ st' history,
    publish channel message now st = Built st' ∧
    get (channel_path channel) st' = Some (JArr history) ∧
    history `suffix_of` old ++ [entry] ∧
    last history = Some entry ∧
    length history = (S (length old) `min` 100)%nat ∧
    ∀ k, k ≠ channel_path channel → get k st' = get k st.
Proof.
  intros Hold entry.
  exists (set (channel_path channel)
            (JArr (keep_last_100 (old ++ [entry]))) st),
         (keep_last_100 (old ++ [entry])).
  split; [|split; [|split; [|split; [|split]]]].
  - unfold publish. fold entry. by destruct Hold as [->|[-> ->]].
  - apply LocalAdapterFacts.get_set.
  - apply keep_last_100_suffix.
  - apply keep_last_100_last.
  - rewrite keep_last_100_length, length_app. simpl. lia.
  - intros k Hk. by apply LocalAdapterFacts.get_set_other.
Qed.

(** X1 on a channel that already holds 100 entries. *)
Lemma publish_keeps_last_100_witness :
  let full := replicate 100 (JObj [("timestamp", JNum 0)]) in
  let st := set (channel_path "alerts") (JArr full) (create None) in
  ∃ st' history,
    publish "alerts" [("text", JStr "disk")] 7 st = Built st' ∧
    get (channel_path "alerts") st' = Some (JArr history) ∧
    length history = 100%nat ∧
    last history = Some (JObj [("text", JStr "disk"); ("timestamp", JNum 7)]).
Proof.
  intros full st.
  destruct (publish_keeps_last_100 "alerts" [("text", JStr "disk")] 7 st full)
    as (st' & history & Hrun & Hget & _ & Hlast & Hlen & _).
  - left. reflexivity.
  - exists st', history. split; [exact Hrun|]. split; [exact Hget|].
    split; [|exact Hlast]. rewrite Hlen. unfold full.
    by rewrite length_replicate.
Defined.

(** X2. [publish] on a channel whose key holds a truthy value that is not an
    array throws [TypeError], before anything is written. *)
Theorem publish_on_non_array channel message now st v :
  get (channel_path channel) st = Some v →
  truthy v = true → (∀ items, v ≠ JArr items) →
  publish channel message now st = TypeError.
Proof.
  intros Hget Htruthy Harr. unfold publish. rewrite Hget, Htruthy.
  destruct v; try done. by destruct (Harr items).
Qed.

(** X2 on a channel key that holds the number 5. *)
Lemma publish_on_non_array_witness :
  publish "alerts" [("text", JStr "disk")] 7
    (set (channel_path "alerts") (JNum 5) (create None)) = TypeError.
Proof.
  apply (publish_on_non_array "alerts" _ 7 _ (JNum 5)); [reflexivity..|done].
Defined.

(** *** [list] *)

Lemma traverse_sound prefix obj :
  ∀ currentPath k,
    k ∈ traverse prefix obj currentPath → starts_with k prefix = true.
Proof.
  induction obj as [| b | n | s | items IH | fields IH]
    using LocalAdapterFacts.json_nested_ind; intros cur k; simpl;
    try (intros H; by apply elem_of_nil in H).
  - generalize 0%nat.
    induction IH as [|x items Hx _ IHitems]; intros i Hin.
    + by apply elem_of_nil in Hin.
    + apply elem_of_app in Hin as [Hin|Hin].
      * destruct (starts_with (String.concat "/" _) prefix) eqn:Hpre;
          [|by apply elem_of_nil in Hin].
        apply list_elem_of_singleton in Hin. by subst.
      * apply elem_of_app in Hin as [Hin|Hin]; [by eapply Hx|].
        by eapply IHitems.
  - induction IH as [|[key x] fields Hx _ IHfields]; intros Hin.
    + by apply elem_of_nil in Hin.
    + apply elem_of_app in Hin as [Hin|Hin].
      * destruct (starts_with (String.concat "/" _) prefix) eqn:Hpre;
          [|by apply elem_of_nil in Hin].
        apply list_elem_of_singleton in Hin. by subst.
      * apply elem_of_app in Hin as [Hin|Hin]; [by eapply Hx|].
        by apply IHfields.
Qed.

(** X3. Every path [list(prefix)] returns starts with [prefix]. *)
Theorem list_only_prefixed prefix st ks :
  list_ prefix st = Built ks → ∀ k, k ∈ ks → starts_with k prefix = true.
Proof.
  unfold list_. destruct (pathToObject (data st)) as [rootObj| | |]; [|done..].
  intros [= <-] k. apply traverse_sound.
Qed.

(** X3 on a store with [agents/a1], [agents/a2] and [system]. *)
Lemma list_only_prefixed_witness :
  let st := set "system" (JNum 1) (set "agents/a2" (JNum 2)
              (set "agents/a1" (JNum 3) (create None))) in
  list_ "agents/" st = Built ["agents/a1"; "agents/a2"] ∧
  starts_with "agents/a2" "agents/" = true.
Proof.
  intros st. split; [reflexivity|].
  apply (list_only_prefixed "agents/" st ["agents/a1"; "agents/a2"]).
  - reflexivity.
  - right. left.
Defined.

(** *** [health] *)

(** X4. [health()] on this adapter reports ['healthy'] without an error, and
    it writes: afterwards the store is dirty, the key [.health-check] and
    every key under it are gone, whatever they held, and all other keys and
    the data file are as before. *)
Theorem health_probe_effects t0 t1 t2 fileSize st :
  let h := (health t0 t1 t2 fileSize st).1 in
  let st' := (health t0 t1 t2 fileSize st).2 in
  AdapterRegistry.status h = AdapterRegistry.healthy ∧
  AdapterRegistry.error h = None ∧
  AdapterRegistry.latency h = t2 - t0 ∧
  isDirty st' = true ∧ dataFile st' = dataFile st ∧
  exists_ ".health-check" st' = false ∧
  (∀ k, starts_with k ".health-check/" = true → exists_ k st' = false) ∧
  (∀ k, k ≠ ".health-check" → starts_with k ".health-check/" = false →
        get k st' = get k st).
Proof.
  intros h st'. repeat split.
  - unfold st', health, exists_, getNestedValue; simpl.
    rewrite LocalAdapterFacts.delete_descendants_None; [done|].
    apply JsMapFacts.get_delete_eq.
  - intros k Hpre. unfold st', health, exists_, getNestedValue; simpl.
    set (d := JsMap.delete ".health-check" _).
    destruct (JsMap.get k d) as [v|] eqn:Hk.
    + rewrite LocalAdapterFacts.delete_descendants_prefixed; [done..|].
      by eapply JsMapFacts.get_Some_keys.
    + by rewrite LocalAdapterFacts.delete_descendants_None.
  - intros k Hne Hpre. unfold st', health, get, getNestedValue; simpl.
    rewrite LocalAdapterFacts.delete_descendants_other by done.
    rewrite JsMapFacts.get_delete_ne by done.
    by apply JsMapFacts.get_set_ne.
Qed.

(** *** [delete] *)

Lemma delete_absent {V : Type} k (m : JsMap.t V) :
  k ∉ JsMap.keys m → JsMap.delete k m = m.
Proof.
  unfold JsMap.keys. induction m as [|[k' v'] m IH]; simpl; [done|].
  intros [Hne Hin]%not_elem_of_cons. rewrite decide_False by done.
  by rewrite IH.
Qed.

Lemma delete_descendants_none prefix ks (d : JsMap.t json) :
  (∀ k, k ∈ ks → starts_with k prefix = false) →
  delete_descendants prefix ks d = d.
Proof.
  revert d. induction ks as [|key ks IH]; intros d Hks; simpl; [done|].
  rewrite (Hks key) by left. apply IH. intros k Hk. apply Hks. by right.
Qed.

(** X5. [delete] is idempotent: a second [delete(p)] changes nothing. *)
Theorem delete_twice p st : delete p (delete p st) = delete p st.
Proof.
  unfold delete, deleteNestedValue; simpl. f_equal.
  set (d := delete_descendants (p +:+ "/") _ (JsMap.delete p (data st))).
  assert (JsMap.get p d = None) as Hp.
  { apply LocalAdapterFacts.delete_descendants_None, JsMapFacts.get_delete_eq. }
  rewrite (delete_absent p d) by by apply JsMapFacts.get_None_keys.
  apply delete_descendants_none. intros k Hk.
  destruct (starts_with k (p +:+ "/")) eqn:Hpre; [|done].
  apply JsMapFacts.get_None_keys in Hk; [done|]. subst d.
  destruct (JsMap.get k (JsMap.delete p (data st))) as [v|] eqn:Hget.
  - apply LocalAdapterFacts.delete_descendants_prefixed; [done|].
    by eapply JsMapFacts.get_Some_keys.
  - by apply LocalAdapterFacts.delete_descendants_None.
Qed.

(** *** [batch] *)

(** X6. A batch of [set] operations runs in order: afterwards a path reads
    the value of the last operation that set it, and a path no operation
    set reads as before. *)
Theorem batch_last_set_wins operations p st :
  only_sets operations →
  get p (batch operations st) =
  match last_set p operations with
  | Some v => Some v
  | None => get p st
  end.
Proof.
  intros Hsets. revert st.
  induction Hsets as [|op operations Hop _ IH]; intros st; [done|].
  destruct op as [q v|q]; [|done]. simpl. unfold batch in IH. rewrite IH.
  destruct (last_set p operations); [done|].
  destruct (decide (q = p)) as [->|Hne].
  - apply LocalAdapterFacts.get_set.
  - by apply LocalAdapterFacts.get_set_other.
Qed.

(** X6 on three operations, two of them on [a]. *)
Lemma batch_last_set_wins_witness :
  let operations := [OpSet "a" (JNum 1); OpSet "b" (JNum 2);
                     OpSet "a" (JNum 3)] in
  get "a" (batch operations (create None)) = Some (JNum 3) ∧
  get "c" (batch operations (create None)) = None.
Proof.
  intros operations. split.
  - rewrite (batch_last_set_wins operations "a" (create None));
      [reflexivity | by repeat constructor].
  - rewrite (batch_last_set_wins operations "c" (create None));
      [reflexivity | by repeat constructor].
Defined.

(** *** A save in flight *)






(** *** Maps of plain names *)

Lemma fold_set_fresh {V W : Type} (f : W → V) (entries : list (string * W))
  (cs : JsMap.t V) :
  NoDup (JsMap.keys cs ++ entries.*1) →
  fold_left (fun cs kv => JsMap.set kv.1 (f kv.2) cs) entries cs =
  cs ++ ((fun kv => (kv.1, f kv.2)) <$> entries).
Proof.
  revert cs. induction entries as [|[k w] entries IH]; intros cs Hnd; simpl.
  - by rewrite app_nil_r.
  - assert (k ∉ JsMap.keys cs) as Hk.
    { apply NoDup_app in Hnd as (_ & Hdis & _). intros Hin.
      apply (Hdis k Hin). left. }
    rewrite JsMapFacts.set_fresh by by apply JsMapFacts.get_None_keys.
    rewrite IH; [by rewrite <- app_assoc|].
    unfold JsMap.keys in *. rewrite map_app. simpl. rewrite <- app_assoc.
    exact Hnd.
Qed.

Lemma fmap_pair_id {V : Type} (l : list (string * V)) :
  (fun kv => (kv.1, id kv.2)) <$> l = l.
Proof. induction l as [|[k v] l IH]; simpl; [done|]. by f_equal. Qed.

Lemma pathToObject_plain (entries : JsMap.t json) (cs : JsObject.t tree) :
  Forall (fun kv => split_slash kv.1 = [kv.1] ∧ kv.1 ≠ "__proto__" ∧
                    is_plain_object kv.2 = false) entries →
  pathToObject_loop entries (Dir cs) =
  Built (Dir (fold_left (fun cs kv => JsObject.set kv.1 (Leaf kv.2) cs)
                        entries cs)).
Proof.
  intros Hplain. revert cs.
  induction Hplain as [|[k v] entries (Hk & Hproto & _) _ IH]; intros cs;
    [done|].
  simpl in *. rewrite Hk. simpl. rewrite decide_False by done. apply IH.
Qed.

Lemma tree_to_json_Dir (cs : JsObject.t tree) :
  tree_to_json (Dir cs) = JObj ((fun kc => (kc.1, tree_to_json kc.2)) <$> cs).
Proof.
  induction cs as [|[k c] cs IH]; [done|].
  rewrite fmap_cons. simpl in *. injection IH as IH. by rewrite IH.
Qed.

(** The document [save()] writes for a map of plain names. *)
Lemma tree_to_json_leaves (entries : JsMap.t json) (cs : JsObject.t tree) :
  (fun kc => (kc.1, tree_to_json kc.2)) <$>
    fold_left (fun cs kv => JsObject.set kv.1 (Leaf kv.2) cs) entries cs =
  fold_left (fun o kv => JsObject.set kv.1 kv.2 o) entries
            ((fun kc => (kc.1, tree_to_json kc.2)) <$> cs).
Proof.
  revert cs. induction entries as [|[k v] entries IH]; intros cs; [done|].
  simpl. rewrite IH. by rewrite (JsObjectFacts.set_fmap tree_to_json).
Qed.

Lemma objectToPath_plain (entries d : JsMap.t json) :
  Forall (fun kv => is_plain_object kv.2 = false) entries →
  objectToPath (JObj entries) "" d =
  fold_left (fun d kv => JsMap.set kv.1 (id kv.2) d) entries d.
Proof.
  intros Hplain. revert d. simpl.
  induction Hplain as [|[k v] entries Hv _ IH]; intros d; [done|].
  simpl in *. rewrite IH. by destruct v.
Qed.

Lemma plain_names_built d :
  plain_names d →
  ∃ rootObj, pathToObject d = Built rootObj ∧
             tree_to_json rootObj = JObj (property_order d).
Proof.
  intros [_ Hplain]. eexists. split.
  - unfold pathToObject. by apply pathToObject_plain.
  - rewrite tree_to_json_Dir. f_equal. apply tree_to_json_leaves.
Qed.

(** The properties of the object are the entries of the map, each once. *)
Lemma get_fold_set (entries : JsMap.t json) (o : JsObject.t json) k :
  NoDup (JsMap.keys entries) →
  JsMap.get k (fold_left (fun o kv => JsObject.set kv.1 kv.2 o) entries o) =
  match JsMap.get k entries with
  | Some v => Some v
  | None => JsMap.get k o
  end.
Proof.
  revert o. induction entries as [|[k' v'] entries IH]; intros o Hnd; [done|].
  apply NoDup_cons in Hnd as [Hk' Hnd]. simpl in *. rewrite IH by done.
  destruct (decide (k' = k)) as [->|Hne].
  - apply JsMapFacts.get_None_keys in Hk'. rewrite Hk'.
    apply JsObjectFacts.get_assigned.
  - by rewrite JsObjectFacts.get_assigned_other.
Qed.

Lemma get_property_order d k :
  NoDup (JsMap.keys d) → JsMap.get k (property_order d) = JsMap.get k d.
Proof.
  intros Hnd. unfold property_order. rewrite get_fold_set by done.
  by destruct (JsMap.get k d).
Qed.

Lemma property_order_invariant (P : string * json → Prop)
  (entries : JsMap.t json) (o : JsObject.t json) :
  Forall P entries → Forall P o → NoDup (JsMap.keys o) →
  let o' := fold_left (fun o kv => JsObject.set kv.1 kv.2 o) entries o in
  Forall P o' ∧ NoDup (JsMap.keys o').
Proof.
  intros Hentries. revert o.
  induction Hentries as [|[k v] entries Hkv _ IH]; intros o Ho Hnd; [done|].
  simpl. apply IH.
  - by apply JsObjectFacts.Forall_set.
  - by apply JsObjectFacts.keys_assigned_NoDup.
Qed.

(** Without array indices among the keys the order is the order of the
    map. *)
Lemma property_order_plain d :
  NoDup (JsMap.keys d) →
  (∀ k, k ∈ JsMap.keys d → JsObject.array_index k = None) →
  property_order d = d.
Proof.
  intros Hnd Hplain. unfold property_order.
  transitivity (fold_left (fun o kv => JsMap.set kv.1 (id kv.2) o) d []).
  - generalize (@nil (string * json)). unfold JsMap.keys in Hplain.
    clear Hnd. induction d as [|[k v] d IH]; intros o; [done|].
    simpl. rewrite JsObjectFacts.set_plain by (apply Hplain; left).
    apply IH. intros k' Hk'. apply Hplain. by right.
  - rewrite (fold_set_fresh id) by done. apply fmap_pair_id.
Qed.

(** X8. A map of plain names (keys without a slash, none of them
    [__proto__], holding primitives and arrays) survives [save()] and a
    restart: every key reads as before, and the reloaded map is the map in
    the order of the properties of one object, which is the order of the map
    itself when no key is an array index. *)
Theorem restart_keeps_plain_names st :
  plain_names (data st) →
  ∃ st', persist_and_restart st = Built st' ∧
         (∀ k, get k st' = get k st) ∧
         data st' = property_order (data st) ∧
         ((∀ k, k ∈ JsMap.keys (data st) → JsObject.array_index k = None) →
          data st' = data st).
Proof.
  intros Hplain.
  destruct (plain_names_built _ Hplain) as (rootObj & Hbuilt & Hjson).
  destruct Hplain as [Hnd Hplain].
  unfold persist_and_restart, save. rewrite Hbuilt, Hjson.
  eexists. split; [reflexivity|].
  set (saved := {| data := data st; isDirty := false;
                   dataFile := Some (JObj (property_order (data st))) |}).
  assert (data (restart saved) = property_order (data st)) as Hdata.
  { change (data (restart saved))
      with (objectToPath (JObj (property_order (data st))) "" JsMap.empty).
    destruct (property_order_invariant
                (fun kv => is_plain_object kv.2 = false) (data st) [])
      as [Hflat Hnd']; [|done|constructor|].
    { eapply Forall_impl; [exact Hplain|]. by intros ? (_ & _ & ?). }
    fold (property_order (data st)) in Hflat, Hnd'.
    rewrite objectToPath_plain by done.
    rewrite (fold_set_fresh id) by done. apply fmap_pair_id. }
  split; [|split; [exact Hdata|]].
  - intros k. unfold get, getNestedValue. rewrite Hdata.
    by apply get_property_order.
  - intros Hnames. rewrite Hdata. by apply property_order_plain.
Qed.

(** X8 on a store with an array of log lines, written first, and a counter
    under the key [7]: both read as before, and [7] comes back first. *)
Lemma restart_keeps_plain_names_witness :
  let st := set "7" (JNum 4)
              (set "logs" (JArr [JStr "up"; JStr "down"]) (create None)) in
  ∃ st', persist_and_restart st = Built st' ∧
         get "logs" st' = Some (JArr [JStr "up"; JStr "down"]) ∧
         JsMap.keys (data st') = ["7"; "logs"].
Proof.
  intros st.
  destruct (restart_keeps_plain_names st) as (st' & Hrun & Hget & Hdata & _).
  - split; [|by repeat constructor]. simpl.
    repeat constructor; intros H; by repeat apply elem_of_cons in H as [H|H];
      try apply elem_of_nil in H.
  - exists st'. split; [exact Hrun|]. split.
    + rewrite Hget. reflexivity.
    + rewrite Hdata. reflexivity.
Defined.

Lemma traverse_cons prefix key value fs cur :
  traverse prefix (JObj ((key, value) :: fs)) cur =
  (if starts_with (String.concat "/" (cur ++ [key])) prefix
   then [String.concat "/" (cur ++ [key])] else [])
    ++ traverse prefix value (cur ++ [key]) ++ traverse prefix (JObj fs) cur.
Proof. reflexivity. Qed.

Lemma traverse_finds_field prefix k (fields : JsMap.t json) :
  k ∈ JsMap.keys fields → starts_with k prefix = true →
  k ∈ traverse prefix (JObj fields) [].
Proof.
  intros Hin Hpre. unfold JsMap.keys in Hin.
  induction fields as [|[k' v'] d IH]; simpl in Hin.
  - by apply elem_of_nil in Hin.
  - rewrite traverse_cons. apply elem_of_cons in Hin as [<-|Hin].
    + simpl. rewrite Hpre. left.
    + apply elem_of_app. right. apply elem_of_app. right. by apply IH.
Qed.

(** X9. On a map of plain names [list(prefix)] returns every stored key that
    starts with [prefix]. *)
Theorem list_finds_plain_names prefix st :
  plain_names (data st) →
  ∃ ks, list_ prefix st = Built ks ∧
        ∀ k, k ∈ JsMap.keys (data st) → starts_with k prefix = true → k ∈ ks.
Proof.
  intros Hplain.
  destruct (plain_names_built _ Hplain) as (rootObj & Hbuilt & Hjson).
  unfold list_. rewrite Hbuilt, Hjson.
  eexists. split; [reflexivity|]. intros k Hin. apply traverse_finds_field.
  destruct (JsMap.get k (property_order (data st))) as [v|] eqn:Hget;
    [by eapply JsMapFacts.get_Some_keys|].
  rewrite get_property_order in Hget by apply Hplain.
  by apply JsMapFacts.get_None_keys in Hget.
Qed.

(** X9 on a store with [alerts] and [agents]. *)
Lemma list_finds_plain_names_witness :
  let st := set "agents" (JNum 2) (set "alerts" (JNum 1) (create None)) in
  ∃ ks, list_ "a" st = Built ks ∧ "agents" ∈ ks.
Proof.
  intros st. destruct (list_finds_plain_names "a" st) as (ks & Hrun & Hin).
  - split; [|by repeat constructor]. simpl.
    repeat constructor; intros H; by repeat apply elem_of_cons in H as [H|H];
      try apply elem_of_nil in H.
  - exists ks. split; [exact Hrun|]. apply Hin; [|reflexivity].
    simpl. right. left.
Defined.

(** *** Restarts *)

(** X10. After a [save()] and a restart no key reads back a non-array
    object, whatever the store held: [load()] stores primitives and arrays
    only. *)
Theorem restart_never_reads_object st st' p fields :
  persist_and_restart st = Built st' → get p st' ≠ Some (JObj fields).
Proof. apply LocalAdapterFacts.restart_reads_no_object. Qed.

(** X10 on the store that holds the object [{a: 1}] under [x]. *)
Lemma restart_never_reads_object_witness :
  let st := set "x" (JObj [("a", JNum 1)]) (create None) in
  ∃ st', persist_and_restart st = Built st' ∧
         get "x" st' ≠ Some (JObj [("a", JNum 1)]).
Proof.
  intros st. eexists. split; [reflexivity|].
  eapply (restart_never_reads_object st). reflexivity.
Defined.

(** X11. A primitive or an array stored alone is read back after a [save()]
    and a restart, under a path of any depth that does not begin with a
    slash, has no segment before the last that names a property of
    [Object.prototype], and does not end in [__proto__]. *)
Theorem restart_reads_lone_leaf p v :
  is_plain_object v = false → starts_with p "/" = false →
  own_walk (split_slash p) = true →
  ∃ st', persist_and_restart (set p v (create None)) = Built st' ∧
         get p st' = Some v.
Proof. apply LocalAdapterFacts.restart_keeps_leaf. Qed.

(** X11 on an array stored three segments deep. *)
Lemma restart_reads_lone_leaf_witness :
  ∃ st',
    persist_and_restart
      (set "pubsub/alerts/messages" (JArr [JNum 1]) (create None)) =
      Built st' ∧
    get "pubsub/alerts/messages" st' = Some (JArr [JNum 1]).
Proof.
  apply (restart_reads_lone_leaf "pubsub/alerts/messages" (JArr [JNum 1]));
    reflexivity.
Defined.

End LocalAdapterOpsFacts.

(** ** The adapter registry: the rest of its operations *)

Module AdapterRegistryOpsFacts.
Import AdapterRegistry AdapterRegistryOps.

Implicit Types (st : state) (l : list MemoryAdapter) (a : MemoryAdapter)
  (n : string).

Lemma get_register_onto n l st :
  get n (register_onto st l) =
  match last (filter (fun a => name a = n) l) with
  | Some b => Some b
  | None => get n st
  end.
Proof.
  revert st. induction l as [|a l IH]; intros st; [done|].
  simpl. rewrite IH. destruct (decide (name a = n)) as [Hn|Hn].
  - rewrite filter_cons_True by done.
    destruct (filter (fun a => name a = n) l) as [|b bs] eqn:Hf; simpl.
    + unfold get, register; simpl. rewrite <- Hn.
      apply JsMapFacts.get_set_eq.
    + by destruct (last (b :: bs)) eqn:Hlast;
        [|apply last_None in Hlast].
  - rewrite filter_cons_False by done.
    destruct (last (filter (fun a => name a = n) l)); [done|].
    unfold get, register; simpl. by apply JsMapFacts.get_set_ne.
Qed.

Lemma keys_register_onto n l st :
  n ∈ JsMap.keys (adapters (register_onto st l)) ↔
  n ∈ JsMap.keys (adapters st) ∨ n ∈ name <$> l.
Proof.
  revert st. induction l as [|a l IH]; intros st; simpl.
  - split; [by left|]. intros [?|H]; [done|]. by apply elem_of_nil in H.
  - rewrite IH. unfold register at 1; simpl. rewrite JsMapFacts.keys_set.
    rewrite elem_of_cons.
    destruct (decide (name a ∈ JsMap.keys (adapters st))) as [Hin|Hin].
    + split; [tauto|]. intros [?|[->|?]]; tauto.
    + rewrite elem_of_app, list_elem_of_singleton. split; [tauto|].
      intros [?|[->|?]]; tauto.
Qed.

(** X12. The registry after any run of [register]: [list()] holds each
    registered name once, and [get(name)] returns the adapter registered
    last under that name. *)
Theorem register_last_wins l :
  let reg := register_all l in
  NoDup (list_ reg) ∧
  (∀ n, n ∈ list_ reg ↔ n ∈ name <$> l) ∧
  ∀ n, get n reg = last (filter (fun a => name a = n) l).
Proof.
  intros reg. split; [|split].
  - apply AdapterRegistryFacts.register_all_keys.
  - intros n. subst reg. unfold list_.
    change (register_all l) with (register_onto initial l).
    rewrite (keys_register_onto n l initial). simpl. split; [|by right].
    intros [H|H]; [by apply elem_of_nil in H | done].
  - intros n. subst reg.
    change (register_all l) with (register_onto initial l).
    rewrite (get_register_onto n l initial).
    by destruct (last (filter (fun a => name a = n) l)).
Qed.

Lemma primary_kept l st :
  no_primary (primaryAdapter st) = false →
  primaryAdapter (register_onto st l) = primaryAdapter st.
Proof.
  revert st. induction l as [|a l IH]; intros st Hp; [done|].
  simpl. rewrite IH; unfold register; simpl; by rewrite Hp.
Qed.

Lemma no_primary_name n : no_primary (Some n) = false ↔ n ≠ "".
Proof.
  simpl. destruct (decide (n = "")) as [->|Hne].
  - by rewrite bool_decide_eq_true_2.
  - by rewrite bool_decide_eq_false_2.
Qed.

Lemma primary_first_named l st :
  no_primary (primaryAdapter st) = true →
  primaryAdapter (register_onto st l) =
  match list_find (fun a => name a ≠ "") l with
  | Some (_, a) => Some (name a)
  | None => match l with [] => primaryAdapter st | _ => Some "" end
  end.
Proof.
  revert st. induction l as [|a l IH]; intros st Hp; [done|].
  simpl. destruct (decide (name a ≠ "")) as [Hne|Heq].
  - rewrite primary_kept; unfold register; simpl; rewrite Hp; [done|].
    by apply no_primary_name.
  - apply dec_stable in Heq. rewrite IH.
    + destruct (list_find (fun a => name a ≠ "") l) as [[i b]|]; [done|].
      destruct l; [|done]. unfold register; simpl. by rewrite Hp, Heq.
    + unfold register; simpl. by rewrite Hp, Heq.
Qed.

(** X13. The primary is the first registered adapter with a non-empty name,
    and no later [register] changes it; [getPrimary()] returns the adapter
    registered last under that name. When every registered name is empty
    [getPrimary()] is [undefined]. *)
Theorem primary_is_first_named l :
  match list_find (fun a => name a ≠ "") l with
  | Some (_, a) =>
      primaryAdapter (register_all l) = Some (name a) ∧
      getPrimary (register_all l) = last (filter (fun b => name b = name a) l)
  | None => getPrimary (register_all l) = None
  end.
Proof.
  pose proof (primary_first_named l initial eq_refl) as Hp.
  unfold getPrimary.
  change (register_all l) with (register_onto initial l).
  rewrite Hp. destruct (list_find (fun a => name a ≠ "") l) as [[i a]|] eqn:Hf.
  - apply list_find_Some in Hf as (_ & Hne & _).
    split; [done|]. rewrite (proj2 (no_primary_name (name a)) Hne).
    pose proof (get_register_onto (name a) l initial) as Hget.
    unfold get in Hget. rewrite Hget.
    by destruct (last (filter (fun b => name b = name a) l)).
  - by destruct l.
Qed.

(** X14. [setPrimary(name)] with an unregistered name throws
    [Adapter <name> not found]; with a registered name it makes that name the
    primary, leaves the adapters alone, and [getPrimary()] then returns the
    adapter of that name. *)
Theorem setPrimary_known_or_throws n st :
  match get n st with
  | None => setPrimary n st = Rejected ("Adapter " +:+ n +:+ " not found")
  | Some a =>
      ∃ st', setPrimary n st = Resolved st' ∧
             adapters st' = adapters st ∧ primaryAdapter st' = Some n ∧
             (n ≠ "" → getPrimary st' = Some a)
  end.
Proof.
  unfold setPrimary, get, JsMap.has.
  destruct (JsMap.get n (adapters st)) as [a|] eqn:Hn; [|done].
  eexists. split; [reflexivity|]. split; [done|]. split; [done|].
  intros Hne. unfold getPrimary; simpl.
  by rewrite bool_decide_eq_false_2.
Qed.

End AdapterRegistryOpsFacts.

(** ** Subscriptions: runs of requests, and who is notified *)

Module SubscriptionsOpsFacts.
Import Subscriptions SubscriptionsOps.

Implicit Types (st : state) (p : string) (cb : callback).

Lemma polling_matches_create : polling_matches (create Composer).
Proof.
  split; [|split; [|split; [|split]]]; simpl.
  - intros p. rewrite !lookup_empty. split; intros [? ?]; done.
  - intros t. split; [set_solver|]. intros [p Hp].
    by rewrite lookup_empty in Hp.
  - intros p q t Hp. by rewrite lookup_empty in Hp.
  - intros p t Hp. by rewrite lookup_empty in Hp.
  - intros p subs Hp. by rewrite lookup_empty in Hp.
Qed.

Lemma polling_matches_subscribe p cb st :
  class st = Composer → polling_matches st →
  polling_matches (base_subscribe p cb st).
Proof.
  intros Hc (I1 & I2 & I3 & I4 & I5).
  unfold base_subscribe, startPolling; simpl. rewrite Hc.
  destruct (pollingIntervals st !! p) as [t|] eqn:Hp.
  - split; [|split; [|split; [|split]]]; simpl; try done.
    + intros q. destruct (decide (p = q)) as [<-|Hne].
      * rewrite lookup_insert_eq, Hp. split; eauto.
      * by rewrite lookup_insert_ne.
    + intros q subs. destruct (decide (p = q)) as [<-|Hne].
      * rewrite lookup_insert_eq. intros [= <-]. set_solver.
      * rewrite lookup_insert_ne by done. apply I5.
  - split; [|split; [|split; [|split]]]; simpl.
    + intros q. destruct (decide (p = q)) as [<-|Hne].
      * rewrite !lookup_insert_eq. split; eauto.
      * by rewrite !lookup_insert_ne.
    + intros t. rewrite elem_of_union, elem_of_singleton, I2. split.
      * intros [->|[q Hq]]; [exists p; apply lookup_insert_eq|].
        exists q. rewrite lookup_insert_ne; [done|]. intros <-. congruence.
      * intros [q Hq]. destruct (decide (p = q)) as [<-|Hne].
        -- rewrite lookup_insert_eq in Hq. left. congruence.
        -- rewrite lookup_insert_ne in Hq by done. right. eauto.
    + intros q1 q2 t.
      destruct (decide (p = q1)) as [<-|H1], (decide (p = q2)) as [<-|H2];
        rewrite ?lookup_insert_eq, ?lookup_insert_ne by done; try done.
      * intros [= <-] Hq. apply I4 in Hq. lia.
      * intros Hq [= <-]. apply I4 in Hq. lia.
      * apply I3.
    + intros q t. destruct (decide (p = q)) as [<-|Hne].
      * rewrite lookup_insert_eq. intros [= <-]. lia.
      * rewrite lookup_insert_ne by done. intros Hq%I4. lia.
    + intros q subs. destruct (decide (p = q)) as [<-|Hne].
      * rewrite lookup_insert_eq. intros [= <-]. set_solver.
      * rewrite lookup_insert_ne by done. apply I5.
Qed.

Lemma polling_matches_unsubscribe p cb st :
  class st = Composer → polling_matches st →
  polling_matches (base_unsubscribe p cb st).
Proof.
  intros Hc (I1 & I2 & I3 & I4 & I5). unfold base_unsubscribe.
  destruct (subscribers st !! p) as [subs|] eqn:Hsubs; [|done].
  destruct (decide (size (subs ∖ {[cb]}) = 0%nat)) as [Hlast|Hmore].
  - unfold stopPolling; simpl. rewrite Hc.
    destruct (I1 p) as [[t Hp] _]; [by eauto|]. rewrite Hp.
    split; [|split; [|split; [|split]]]; simpl.
    + intros q. destruct (decide (p = q)) as [<-|Hne].
      * rewrite !lookup_delete_eq. split; intros [? ?]; done.
      * by rewrite !lookup_delete_ne.
    + intros t'. rewrite elem_of_difference, elem_of_singleton, I2. split.
      * intros [[q Hq] Hne]. exists q. rewrite lookup_delete_ne; [done|].
        intros <-. congruence.
      * intros [q Hq]. destruct (decide (p = q)) as [<-|Hne].
        -- by rewrite lookup_delete_eq in Hq.
        -- rewrite lookup_delete_ne in Hq by done. split; [eauto|].
           intros ->. apply Hne. by eapply I3.
    + intros q1 q2 t'.
      destruct (decide (p = q1)) as [<-|H1]; [by rewrite lookup_delete_eq|].
      destruct (decide (p = q2)) as [<-|H2]; [by rewrite lookup_delete_eq|].
      rewrite !lookup_delete_ne by done. apply I3.
    + intros q t'. destruct (decide (p = q)) as [<-|Hne].
      * by rewrite lookup_delete_eq.
      * rewrite lookup_delete_ne by done. apply I4.
    + intros q subs'. destruct (decide (p = q)) as [<-|Hne].
      * by rewrite lookup_delete_eq.
      * rewrite lookup_delete_ne by done. apply I5.
  - split; [|split; [|split; [|split]]]; simpl; try done.
    + intros q. destruct (decide (p = q)) as [<-|Hne].
      * rewrite lookup_insert_eq. rewrite <- I1, Hsubs. split; eauto.
      * by rewrite lookup_insert_ne.
    + intros q subs'. destruct (decide (p = q)) as [<-|Hne].
      * rewrite lookup_insert_eq. intros [= <-] Hempty. apply Hmore.
        rewrite Hempty. apply size_empty.
      * rewrite lookup_insert_ne by done. apply I5.
Qed.

Lemma class_serve st r : class (serve st r) = class st.
Proof.
  destruct r; simpl;
    [apply SubscriptionsFacts.class_base_subscribe
    |apply SubscriptionsFacts.class_base_unsubscribe].
Qed.

Lemma polling_matches_serve_all rs st :
  class st = Composer → polling_matches st →
  polling_matches (serve_all rs st).
Proof.
  revert st. induction rs as [|r rs IH]; intros st Hc Hm; [done|].
  simpl. apply IH; [by rewrite class_serve|].
  destruct r; simpl;
    [by apply polling_matches_subscribe|by apply polling_matches_unsubscribe].
Qed.

(** X15. A [ComposerAdapter] never leaks a polling interval and never polls
    for nobody: after any run of subscribe and unsubscribe calls, a path has
    an interval exactly when it has a subscriber, that interval is alive,
    every live interval belongs to such a path, and two paths never share
    one. *)
Theorem composer_polls_subscribed_paths rs :
  let st := serve_all rs (create Composer) in
  (∀ p, is_Some (subscribers st !! p) ↔
        ∃ t, pollingIntervals st !! p = Some t ∧ t ∈ intervals st) ∧
  (∀ t, t ∈ intervals st →
        ∃ p, pollingIntervals st !! p = Some t ∧
             is_Some (subscribers st !! p)) ∧
  (∀ p q t, pollingIntervals st !! p = Some t →
            pollingIntervals st !! q = Some t → p = q) ∧
  (∀ p subs, subscribers st !! p = Some subs → ∃ cb, cb ∈ subs).
Proof.
  intros st.
  destruct (polling_matches_serve_all rs (create Composer) eq_refl
              polling_matches_create) as (I1 & I2 & I3 & I4 & I5).
  fold st in I1, I2, I3, I4, I5. split; [|split; [|split]].
  - intros p. rewrite I1. split.
    + intros [t Hp]. exists t. split; [done|]. apply I2. eauto.
    + intros (t & Hp & _). eauto.
  - intros t [p Hp]%I2. exists p. split; [done|]. apply I1. eauto.
  - exact I3.
  - intros p subs Hsubs. apply I5 in Hsubs.
    apply set_choose_L in Hsubs. exact Hsubs.
Qed.

(** *** Notifications of a [LocalAdapter] *)

Lemma change_calls_subscribe p cb q st :
  class st = Local →
  change_calls q (local_subscribe p cb st).2 =
  change_calls q st ++
    (if decide (hears q (mkListener (next_listener st) p cb))
     then [cb] else []).
Proof.
  intros Hc. unfold change_calls, local_subscribe, base_subscribe,
    startPolling; simpl. rewrite Hc. simpl.
  rewrite filter_app, fmap_app. f_equal.
  unfold filter at 1; simpl. unfold hears at 1 3; simpl.
  by repeat case_decide.
Qed.

(** X16. What one [subscribe(p, cb)] on a [LocalAdapter] adds: a [set] on
    [p] itself now calls [cb] once through the ['change'] event and once
    through [notifySubscribers], so at least twice; a [set] on a key below
    [p] calls it once more than before; a [delete] on a key other than [p]
    calls it no more than before. *)
Theorem local_subscriber_calls p cb st :
  class st = Local →
  let st' := (local_subscribe p cb st).2 in
  calls_on_set p cb st' =
    (length (filter (fun c => c = cb) (change_calls p st)) + 2)%nat ∧
  (∀ q, q ≠ p → starts_with q (p +:+ "/") = true →
        calls_on_set q cb st' = S (calls_on_set q cb st)) ∧
  calls_on_delete p cb st' = 1%nat ∧
  (∀ q, q ≠ p → calls_on_delete q cb st' = calls_on_delete q cb st).
Proof.
  intros Hc st'.
  assert (∀ q, notifySubscribers q st' =
               if decide (p = q)
               then {[cb]} ∪ notifySubscribers p st
               else notifySubscribers q st) as Hnotify.
  { intros q. unfold st', notifySubscribers, local_subscribe, base_subscribe,
      startPolling; simpl. rewrite Hc; simpl.
    destruct (decide (p = q)) as [<-|Hne].
    - by rewrite lookup_insert_eq.
    - by rewrite lookup_insert_ne. }
  split; [|split; [|split]].
  - unfold calls_on_set. rewrite (Hnotify p).
    rewrite (decide_True (P := p = p)) by done.
    rewrite (decide_True (P := cb ∈ _)) by set_solver. subst st'.
    rewrite change_calls_subscribe by done.
    rewrite decide_True by (by left). rewrite filter_app, length_app.
    rewrite filter_cons_True, filter_nil by done. simpl. lia.
  - intros q Hne Hbelow. unfold calls_on_set.
    rewrite (Hnotify q), (decide_False (P := p = q)) by done. subst st'.
    rewrite change_calls_subscribe by done.
    rewrite decide_True by (by right). rewrite filter_app, length_app.
    rewrite filter_cons_True, filter_nil by done. simpl. lia.
  - unfold calls_on_delete. rewrite (Hnotify p).
    rewrite (decide_True (P := p = p)) by done.
    by rewrite decide_True by set_solver.
  - intros q Hne. unfold calls_on_delete.
    by rewrite (Hnotify q), (decide_False (P := p = q)).
Qed.

(** X16 on a new [LocalAdapter] with one subscription to [agents]. *)
Lemma local_subscriber_calls_witness :
  let st' := (local_subscribe "agents" 7%nat (create Local)).2 in
  calls_on_set "agents" 7%nat st' = 2%nat ∧
  calls_on_set "agents/a1" 7%nat st' = 1%nat ∧
  calls_on_delete "agents/a1" 7%nat st' = 0%nat.
Proof.
  intros st'.
  destruct (local_subscriber_calls "agents" 7%nat (create Local) eq_refl)
    as (H1 & H2 & _ & H4).
  unfold st'. split; [exact H1|]. split.
  - rewrite (H2 "agents/a1"); [reflexivity | done | reflexivity].
  - rewrite (H4 "agents/a1"); [reflexivity | done].
Defined.

End SubscriptionsOpsFacts.

(** ** The Workrooms engine: more of its behaviour *)

Module WorkroomsOpsFacts.
Import Workrooms WorkroomsOps.

Ltac run :=
  unfold bind, ret, throw, read, modify, emit, put, update_room,
    write_presence, updatePresence, Date_now, new_uuid; simpl.

Lemma Sorted_by_key {A : Type} (key : A → Z) (R : relation A) (l : list A) :
  (∀ a b, key a <= key b → R a b) →
  Sorted Z.le (key <$> l) → Sorted R l.
Proof.
  intros HR. induction l as [|x l IH]; simpl; intros H; [constructor|].
  apply Sorted_inv in H as [Hl Hhd]. constructor; [by apply IH|].
  destruct l; constructor. apply HR. by apply HdRel_inv in Hhd.
Qed.

Lemma js_sort_descending {A : Type} (key : A → Z) (l : list A) :
  descending key (js_sort (fun a b => key b - key a) l).
Proof.
  apply (Sorted_by_key (fun a => - key a)); [intros a b; lia|].
  apply (ArrayFacts.js_sort_sorted _ (fun a => - key a)). intros a b. lia.
Qed.

(** X17. [getUserRooms()] returns exactly the rooms that have the current
    user among their members, each once, the most recently active first. *)
Theorem getUserRooms_mine_latest_first st :
  let me := user_id (currentUser st) in
  getUserRooms st ≡ₚ
    filter (fun room => me ∈ members room) (JsMap.values (rooms st)) ∧
  (∀ room, room ∈ getUserRooms st → me ∈ members room) ∧
  descending lastActivity (getUserRooms st).
Proof.
  intros me. unfold getUserRooms. fold me. split; [|split].
  - apply ArrayFacts.js_sort_perm.
  - intros room Hin. rewrite ArrayFacts.js_sort_perm in Hin.
    by apply list_elem_of_filter in Hin as [? _].
  - apply js_sort_descending.
Qed.

(** X18. [getOnlineUsers()] returns exactly the known users that are online,
    the most recently seen first. *)
Theorem getOnlineUsers_latest_first st :
  getOnlineUsers st ≡ₚ
    filter (fun user => online user = true) (JsMap.values (users st)) ∧
  (∀ user, user ∈ getOnlineUsers st → online user = true) ∧
  descending lastSeen (getOnlineUsers st).
Proof.
  unfold getOnlineUsers. split; [|split].
  - apply ArrayFacts.js_sort_perm.
  - intros user Hin. rewrite ArrayFacts.js_sort_perm in Hin.
    by apply list_elem_of_filter in Hin as [? _].
  - apply js_sort_descending.
Qed.

Section Membership.
Variable now : nat → Z.
Variable uuid : nat → string.

(** X19. [joinRoom] on a known room returns; afterwards the caller is a
    member, appended to the list only when she was not in it; no other room
    changes; her presence record is the last write to the store; and
    joining again changes no room. *)
Theorem joinRoom_adds_member_once roomId room st :
  JsMap.get roomId (rooms st) = Some room →
  let me := user_id (currentUser st) in
  ∃ st' room',
    joinRoom now roomId st = (Returned tt, st') ∧
    JsMap.get roomId (rooms st') = Some room' ∧
    members room' =
      (if decide (me ∈ members room) then members room
       else members room ++ [me]) ∧
    me ∈ members room' ∧
    (∀ r, r ≠ roomId → JsMap.get r (rooms st') = JsMap.get r (rooms st)) ∧
    (∃ joined active,
       last (air st') =
       Some (mkPut ["workroom-presence"; roomId; me]
               (PutPresence (mkPresence roomId me joined None active)))) ∧
    rooms (joinRoom now roomId st').2 = rooms st'.
Proof.
  intros Hroom me. unfold joinRoom, includes. run. rewrite Hroom. fold me.
  destruct (decide (me ∈ members room)) as [Hin|Hout].
  - rewrite bool_decide_eq_true_2 by done. simpl.
    eexists _, room. split; [reflexivity|]. simpl.
    split; [done|]. split; [done|]. split; [done|]. split; [done|].
    split; [eexists _, _; apply last_snoc|].
    rewrite Hroom. fold me. by rewrite bool_decide_eq_true_2.
  - rewrite bool_decide_eq_false_2 by done. simpl.
    eexists _, _. split; [reflexivity|]. simpl.
    split; [apply JsMapFacts.get_set_eq|]. split; [done|].
    split; [apply elem_of_app; right; left|].
    split; [intros r Hr; by apply JsMapFacts.get_set_ne|].
    split; [eexists _, _; apply last_snoc|].
    rewrite JsMapFacts.get_set_eq. simpl. fold me.
    by rewrite bool_decide_eq_true_2 by (apply elem_of_app; right; left).
Qed.

(** X20. [leaveRoom] on a known room returns; afterwards the caller is not a
    member while the others keep their order, her presence is cleared with
    a last write of [null], and a [sendMessage] to the room now throws the
    not-a-member error. *)
Theorem leaveRoom_then_send_fails roomId room st content to thread atts :
  JsMap.get roomId (rooms st) = Some room →
  let me := user_id (currentUser st) in
  ∃ st' room',
    leaveRoom now roomId st = (Returned tt, st') ∧
    JsMap.get roomId (rooms st') = Some room' ∧
    members room' = filter (fun id => id ≠ me) (members room) ∧
    (me ∉ members room') ∧
    last (air st') =
      Some (mkPut ["workroom-presence"; roomId; me] PutNull) ∧
    sendMessage now uuid roomId content to thread atts st' =
      (Thrown NotMemberError, st').
Proof.
  intros Hroom me. unfold leaveRoom. run. rewrite Hroom. fold me.
  assert (me ∉ filter (fun id => id ≠ me) (members room)) as Hout.
  { by intros [? _]%list_elem_of_filter. }
  eexists _, _. split; [reflexivity|]. simpl.
  split; [apply JsMapFacts.get_set_eq|]. split; [done|]. split; [done|].
  split; [apply last_snoc|].
  unfold sendMessage, includes. run. rewrite JsMapFacts.get_set_eq. simpl.
  fold me. by rewrite bool_decide_eq_false_2.
Qed.

(** [sendMessage] by a member, step by step. *)
Lemma sendMessage_run roomId room st content to thread atts :
  JsMap.get roomId (rooms st) = Some room →
  user_id (currentUser st) ∈ members room →
  let me := user_id (currentUser st) in
  let c := clock_reads st in
  let msg := mkMessage (uuid (uuid_reads st)) roomId me
               (user_kind (currentUser st)) to content (now c) thread atts in
  let room' := set_activity (now (S c)) (messageCount room + 1) room in
  sendMessage now uuid roomId content to thread atts st =
  (Returned msg,
   {| currentUser := currentUser st;
      rooms := JsMap.set roomId room' (rooms st);
      messages := messages st;
      presence := presence st;
      users := users st;
      air := air st ++
        [mkPut ["workroom-messages"; roomId; msg_id msg] (PutMessage msg);
         mkPut ["workrooms"; roomId] (PutRoom room');
         mkPut ["workroom-presence"; roomId; me]
               (PutPresence
                  (mkPresence roomId me (now (S (S c))) None
                              (now (S (S (S c))))))];
      emitted := emitted st;
      clock_reads := S (S (S (S c)));
      uuid_reads := S (uuid_reads st) |}).
Proof.
  intros Hroom Hin me c msg room'. unfold sendMessage, includes. run.
  rewrite Hroom. rewrite bool_decide_eq_true_2 by done. simpl.
  by rewrite <- !app_assoc.
Qed.

(** X21. [sendMessage] by a member returns the new message, under the
    identity just drawn and from the caller; the room's [messageCount] goes
    up by one and its members stay; the message, the room and the sender's
    presence are written to the store in that order. The engine's own
    message cache is not touched and no event is emitted: readers see the
    message only once the store delivers it. *)
Theorem sendMessage_by_member roomId room st content to thread atts :
  JsMap.get roomId (rooms st) = Some room →
  user_id (currentUser st) ∈ members room →
  let me := user_id (currentUser st) in
  ∃ msg st' room',
    sendMessage now uuid roomId content to thread atts st =
      (Returned msg, st') ∧
    msg_id msg = uuid (uuid_reads st) ∧ msg_from msg = me ∧
    msg_roomId msg = roomId ∧ msg_text msg = content ∧
    JsMap.get roomId (rooms st') = Some room' ∧
    messageCount room' = messageCount room + 1 ∧
    members room' = members room ∧
    (∃ presence,
       air st' = air st ++
         [mkPut ["workroom-messages"; roomId; msg_id msg] (PutMessage msg);
          mkPut ["workrooms"; roomId] (PutRoom room');
          mkPut ["workroom-presence"; roomId; me] (PutPresence presence)]) ∧
    (∀ r limit, getRoomMessages r limit st' = getRoomMessages r limit st) ∧
    emitted st' = emitted st.
Proof.
  intros Hroom Hin me.
  eexists _, _, (set_activity (now (S (clock_reads st)))
                   (messageCount room + 1) room).
  split; [by apply sendMessage_run|]. simpl.
  repeat split; try done.
  - apply JsMapFacts.get_set_eq.
  - by eexists.
Qed.

Lemma upsert_contains message msgId (l : list WorkroomMessage) :
  message ∈ upsert message msgId l.
Proof.
  destruct (decide (Forall (fun m => msg_id m ≠ msgId) l)) as [Hnew|Hknown].
  - rewrite WorkroomsFacts.upsert_new by done.
    rewrite ArrayFacts.js_sort_perm. apply elem_of_app. right. left.
  - destruct (WorkroomsFacts.upsert_known message msgId l Hknown)
      as (i & old & Hi & _ & ->).
    apply list_elem_of_insert. by eapply lookup_lt_Some.
Qed.

(** X22. A message a member sent is read from [getRoomMessages] once the
    store delivers it under its id: before the delivery the sequence is as
    it was, after it the message is in it. *)
Theorem sent_message_read_after_delivery roomId room st content to thread
  atts :
  JsMap.get roomId (rooms st) = Some room →
  user_id (currentUser st) ∈ members room →
  ∃ msg st',
    sendMessage now uuid roomId content to thread atts st =
      (Returned msg, st') ∧
    getRoomMessages roomId None st' = getRoomMessages roomId None st ∧
    msg ∈ getRoomMessages roomId None
            (deliver now st' (mkDelivery roomId (Some msg) (msg_id msg))).
Proof.
  intros Hroom Hin. eexists _, _.
  split; [by apply sendMessage_run|]. split; [done|].
  rewrite WorkroomsFacts.getRoomMessages_deliver. simpl.
  rewrite decide_True by done. apply upsert_contains.
Qed.

(** X23. The creator can write to the room she created: a [sendMessage] to
    the room that [createRoom] returned does not throw, and it is the
    room's first message. *)
Theorem creator_can_send options st content to thread atts :
  ∃ room st1 msg st2 room',
    createRoom now uuid options st = (Returned room, st1) ∧
    sendMessage now uuid (room_id room) content to thread atts st1 =
      (Returned msg, st2) ∧
    msg_roomId msg = room_id room ∧ msg_from msg = creator room ∧
    JsMap.get (room_id room) (rooms st2) = Some room' ∧
    messageCount room' = 1.
Proof.
  eexists _, _, _, _, _.
  split; [apply WorkroomsFacts.createRoom_run|].
  split.
  - apply sendMessage_run.
    + simpl. apply JsMapFacts.get_set_eq.
    + simpl. left.
  - simpl. split; [reflexivity|]. split; [reflexivity|].
    split; [apply JsMapFacts.get_set_eq | reflexivity].
Qed.

End Membership.

(** X19 in the engine [visiting]: [alice] joins [lobby] after [bob]. *)
Lemma joinRoom_adds_member_once_witness :
  ∃ st' room',
    joinRoom ticks "lobby" visiting = (Returned tt, st') ∧
    JsMap.get "lobby" (rooms st') = Some room' ∧
    members room' = ["bob"; "alice"].
Proof.
  destruct (joinRoom_adds_member_once ticks "lobby" lobby visiting eq_refl)
    as (st' & room' & Hrun & Hget & Hmembers & _).
  exists st', room'. split; [exact Hrun|]. split; [exact Hget|].
  rewrite Hmembers. reflexivity.
Defined.

(** X20 in the engine [hosting]: [alice] leaves [lobby]. *)
Lemma leaveRoom_then_send_fails_witness :
  ∃ st' room',
    leaveRoom ticks "lobby" hosting = (Returned tt, st') ∧
    JsMap.get "lobby" (rooms st') = Some room' ∧
    members room' = ["bob"] ∧
    sendMessage ticks serial "lobby" "bye" None None None st' =
      (Thrown NotMemberError, st').
Proof.
  destruct (leaveRoom_then_send_fails ticks serial "lobby"
              (set_members ["bob"; "alice"] lobby) hosting "bye" None None
              None eq_refl)
    as (st' & room' & Hrun & Hget & Hmembers & _ & _ & Hsend).
  exists st', room'. split; [exact Hrun|]. split; [exact Hget|].
  split; [rewrite Hmembers; reflexivity | exact Hsend].
Defined.

(** X21 in the engine [hosting]: [alice] writes to [lobby]. *)
Lemma sendMessage_by_member_witness :
  ∃ msg st' room',
    sendMessage ticks serial "lobby" "hi" None None None hosting =
      (Returned msg, st') ∧
    msg_id msg = "room-0" ∧
    JsMap.get "lobby" (rooms st') = Some room' ∧
    messageCount room' = 1 ∧
    getRoomMessages "lobby" None st' = [].
Proof.
  destruct (sendMessage_by_member ticks serial "lobby"
              (set_members ["bob"; "alice"] lobby) hosting "hi" None None
              None eq_refl)
    as (msg & st' & room' & Hrun & Hid & _ & _ & _ & Hget & Hcount & _ & _
        & Hcache & _).
  - simpl. right. left.
  - exists msg, st', room'. split; [exact Hrun|]. split; [exact Hid|].
    split; [exact Hget|]. split; [exact Hcount|]. by rewrite Hcache.
Defined.

(** X22 in the engine [hosting]. *)
Lemma sent_message_read_after_delivery_witness :
  ∃ msg st',
    sendMessage ticks serial "lobby" "hi" None None None hosting =
      (Returned msg, st') ∧
    getRoomMessages "lobby" None st' = [] ∧
    msg ∈ getRoomMessages "lobby" None
            (deliver ticks st' (mkDelivery "lobby" (Some msg) (msg_id msg))).
Proof.
  destruct (sent_message_read_after_delivery ticks serial "lobby"
              (set_members ["bob"; "alice"] lobby) hosting "hi" None None
              None eq_refl)
    as (msg & st' & Hrun & Hbefore & Hafter).
  - simpl. right. left.
  - exists msg, st'. split; [exact Hrun|]. split; [|exact Hafter].
    by rewrite Hbefore.
Defined.

Section DirectMessages.
Variable now : nat → Z.
Variable uuid : nat → string.


(** X24. [createDirectMessage] looks before it creates: for an unknown user
    it throws ['User not found'], and when a room passes its test (a [dm]
    room of exactly the two users) it returns such a room; in both cases the
    engine is left as it was. *)
Theorem createDirectMessage_looks_first userId st :
  let me := user_id (currentUser st) in
  (JsMap.get userId (users st) = None →
   createDirectMessage now uuid userId st = (Thrown UserNotFound, st)) ∧
  (∀ other room,
     JsMap.get userId (users st) = Some other →
     room ∈ JsMap.values (rooms st) → is_direct_room me userId room →
     ∃ found,
       createDirectMessage now uuid userId st = (Returned found, st) ∧
       found ∈ JsMap.values (rooms st) ∧ is_direct_room me userId found).
Proof.
  intros me. split.
  - intros Hnone. unfold createDirectMessage. run. by rewrite Hnone.
  - intros other room Hother Hin Hdm. unfold createDirectMessage. run.
    rewrite Hother. fold me.
    destruct (list_find (is_direct_room me userId) (JsMap.values (rooms st)))
      as [[i found]|] eqn:Hfind.
    + unfold is_direct_room in Hfind. rewrite Hfind. simpl.
      apply list_find_Some in Hfind as (Hi & Hfound & _).
      exists found. split; [done|]. split; [|done].
      by eapply list_elem_of_lookup_2.
    + apply list_find_None in Hfind. rewrite Forall_forall in Hfind.
      by destruct (Hfind room Hin).
Qed.



(** *** [history] *)

(** X26. The [history] command never throws and leaves the engine alone.
    Without a limit, or with a limit of [0], it returns the last 50
    messages; a negative limit [-n] returns everything but the first [n]
    messages. *)
Theorem history_command command st :
  cmd_action command = a_history →
  let all := getRoomMessages (cmd_roomId command) None st in
  ∃ ms,
    handleCommand now uuid command st = (Returned (ResMessages ms), st) ∧
    ms `suffix_of` all ∧
    (requested_limit command = None ∨ requested_limit command = Some 0 →
     ms = drop (length all - 50) all) ∧
    (∀ n, requested_limit command = Some (- n) → 0 < n →
          ms = drop (Z.to_nat n) all).
Proof.
  intros Hact all. unfold handleCommand. rewrite Hact. run.
  eexists. split; [reflexivity|]. subst all. unfold getRoomMessages.
  set (all := default [] (JsMap.get (cmd_roomId command) (messages st))).
  assert (history_limit command =
          match requested_limit command with
          | Some l => if decide (l = 0) then 50 else l
          | None => 50
          end) as Hlimit.
  { unfold history_limit, requested_limit.
    destruct (cmd_options command) as [o|]; [|done]. simpl.
    by destruct (co_limit o). }
  assert (history_limit command ≠ 0) as Hnz.
  { rewrite Hlimit. destruct (requested_limit command) as [l|]; [|done].
    by destruct (decide (l = 0)). }
  rewrite !decide_False by done. split; [|split].
  - unfold js_slice. apply suffix_drop.
  - intros Hnone.
    assert (history_limit command = 50) as ->.
    { rewrite Hlimit. by destruct Hnone as [->| ->]. }
    by apply (ArrayFacts.js_slice_last 50).
  - intros n Hreq Hn.
    assert (history_limit command = - n) as ->.
    { rewrite Hlimit, Hreq. rewrite decide_False by lia. done. }
    unfold js_slice. rewrite Z.opp_involutive.
    destruct (n <? 0)%Z eqn:Hneg; [apply Z.ltb_lt in Hneg; lia|].
    destruct (decide (n <= Z.of_nat (length all))) as [Hle|Hgt].
    + by rewrite Z.min_l.
    + rewrite Z.min_r by lia. rewrite Nat2Z.id.
      rewrite drop_all. symmetry. apply drop_ge. lia.
Qed.

End DirectMessages.

(** *** Deliveries *)

(** X27. What one delivery of a message does to a room's sequence: the
    delivered message is in it afterwards, every entry with another id is
    still there, the sequence grows by one entry at most and never shrinks,
    and the sequences of the other rooms do not change. *)
Theorem delivery_keeps_other_messages now roomId message msgId st :
  let before := getRoomMessages roomId None st in
  let after :=
    getRoomMessages roomId None
      (deliver now st (mkDelivery roomId (Some message) msgId)) in
  message ∈ after ∧
  (∀ m, m ∈ before → msg_id m ≠ msgId → m ∈ after) ∧
  (length before ≤ length after ≤ S (length before))%nat ∧
  ∀ r, r ≠ roomId →
       getRoomMessages r None
         (deliver now st (mkDelivery roomId (Some message) msgId)) =
       getRoomMessages r None st.
Proof.
  intros before after. subst after.
  rewrite WorkroomsFacts.getRoomMessages_deliver.
  cbn [d_message d_room d_key]. rewrite decide_True by done.
  subst before. set (before := getRoomMessages roomId None st).
  split; [apply upsert_contains|]. split; [|split].
  - intros m Hm Hid.
    destruct (decide (Forall (fun x => msg_id x ≠ msgId) before))
      as [Hnew|Hknown].
    + rewrite WorkroomsFacts.upsert_new by done.
      rewrite ArrayFacts.js_sort_perm. apply elem_of_app. by left.
    + destruct (WorkroomsFacts.upsert_known message msgId before Hknown)
        as (i & old & Hi & Hold & ->).
      apply list_elem_of_lookup in Hm as [j Hj].
      apply list_elem_of_lookup. exists j.
      rewrite list_lookup_insert_ne; [done|]. intros ->. congruence.
  - destruct (decide (Forall (fun x => msg_id x ≠ msgId) before))
      as [Hnew|Hknown].
    + rewrite WorkroomsFacts.upsert_new by done.
      rewrite ArrayFacts.js_sort_perm, length_app. simpl. lia.
    + destruct (WorkroomsFacts.upsert_known message msgId before Hknown)
        as (i & old & _ & _ & ->).
      rewrite length_insert. lia.
  - intros r Hr. rewrite WorkroomsFacts.getRoomMessages_deliver.
    cbn [d_message d_room d_key]. by rewrite decide_False.
Qed.

(** X24 in the engine [visiting], which knows no user. *)
Lemma createDirectMessage_looks_first_witness :
  createDirectMessage ticks serial "bob" visiting =
    (Thrown UserNotFound, visiting).
Proof.
  by apply (createDirectMessage_looks_first ticks serial "bob" visiting).
Defined.


(** X26 in the engine [visiting]. *)
Lemma history_command_witness :
  handleCommand ticks serial (mkCommand a_history "lobby" "" None None)
    visiting = (Returned (ResMessages []), visiting).
Proof.
  destruct (history_command ticks serial
              (mkCommand a_history "lobby" "" None None) visiting eq_refl)
    as (ms & Hrun & _ & Hdefault & _).
  rewrite Hrun. by rewrite Hdefault by by left.
Defined.

End WorkroomsOpsFacts.

(** ** The file-tree adapter *)

Module ComposerAdapterFacts.
Import ComposerAdapter.

Lemma fromEntries_lookup (entries : JsMap.t json) (o : gmap string json) k :
  NoDup (JsMap.keys entries) →
  fold_left (fun o kv => <[kv.1 := kv.2]> o) entries o !! k =
  match JsMap.get k entries with
  | Some v => Some v
  | None => o !! k
  end.
Proof.
  unfold JsMap.keys. revert o.
  induction entries as [|[k' v'] entries IH]; intros o Hnd; [done|].
  apply NoDup_cons in Hnd as [Hk Hnd]. simpl in *. rewrite IH by done.
  destruct (decide (k' = k)) as [->|Hne].
  - apply JsMapFacts.get_None_keys in Hk. rewrite Hk.
    apply lookup_insert_eq.
  - destruct (JsMap.get k entries); [done|]. by apply lookup_insert_ne.
Qed.

Lemma get_map_to_list (m : gmap string json) k :
  JsMap.get k (map_to_list m) = m !! k.
Proof.
  destruct (m !! k) as [v|] eqn:Hk.
  - apply JsMapFacts.get_elem_of; [apply NoDup_fst_map_to_list|].
    by apply elem_of_map_to_list.
  - apply JsMapFacts.get_None_keys. unfold JsMap.keys.
    intros ((k' & v) & Heq & Hin)%list_elem_of_fmap. simpl in Heq. subst k'.
    apply elem_of_map_to_list in Hin. congruence.
Qed.

Section Files.
Variable pathToFile : string → string.
Variable serializeFile : string → json → string.
Variable parseFile : string → string → option json.
Variable scanDataDir : gmap string string → JsMap.t json → JsMap.t json.

Local Abbreviation get := (get pathToFile parseFile).
Local Abbreviation set := (set pathToFile serializeFile).
Local Abbreviation delete := (delete pathToFile).
Local Abbreviation exists_ := (exists_ pathToFile).
Local Abbreviation restart := (restart scanDataDir).

Implicit Types (st : state) (p k : string) (v : json).


(** X29. The snapshot keeps every value, objects included: after [save()]
    and a restart each cached key reads the value it held, and no other key
    is in the cache. *)
Theorem snapshot_round_trip now st :
  NoDup (JsMap.keys (data st)) →
  ∀ k, JsMap.get k (data (restart (save now st))) = JsMap.get k (data st).
Proof.
  intros Hnd k. unfold ComposerAdapter.restart, load, create, save; simpl.
  rewrite get_map_to_list. unfold fromEntries.
  rewrite fromEntries_lookup by done. rewrite lookup_empty.
  by destruct (JsMap.get k (data st)).
Qed.

(** X30. A snapshot shadows what is written after it: when the process ends
    without a [save()], a key that was in the last snapshot reads, after the
    restart, the value of the snapshot and not the value [set] wrote to its
    file since. *)
Theorem stale_snapshot_wins now k v1 v2 st :
  NoDup (JsMap.keys (data st)) →
  JsMap.get k (data st) = Some v1 →
  let crashed := set k v2 (save now st) in
  (get k crashed).1 = Some v2 ∧
  files crashed !! pathToFile k = Some (serializeFile (pathToFile k) v2) ∧
  (get k (restart crashed)).1 = Some v1.
Proof.
  intros Hnd Hk crashed. split; [|split].
  - unfold crashed, ComposerAdapter.get, ComposerAdapter.set; simpl.
    by rewrite JsMapFacts.get_set_eq.
  - unfold crashed, ComposerAdapter.set; simpl. apply lookup_insert_eq.
  - unfold ComposerAdapter.get.
    assert (JsMap.get k (data (restart crashed)) = Some v1) as ->; [|done].
    unfold crashed, ComposerAdapter.restart, load, create,
      ComposerAdapter.set, save; simpl.
    rewrite get_map_to_list. unfold fromEntries.
    rewrite fromEntries_lookup by done. by rewrite Hk.
Qed.

End Files.


(** X29 on the object [{a: 1}] stored under [x]. *)
Lemma snapshot_round_trip_witness :
  let file := fun key : string => "data/" +:+ key +:+ ".yaml" in
  let text := fun (_ : string) (_ : json) => "text" in
  let scan := fun (_ : gmap string string) (d : JsMap.t json) => d in
  let st := set file text "x" (JObj [("a", JNum 1)]) (create ∅ None) in
  JsMap.get "x" (data (restart scan (save 9 st))) =
    Some (JObj [("a", JNum 1)]).
Proof.
  intros file text scan st.
  rewrite (snapshot_round_trip scan 9 st); [reflexivity|].
  simpl. apply NoDup_singleton.
Defined.

(** X30 with [x] saved as 1 and then set to 2. *)
Lemma stale_snapshot_wins_witness :
  let file := fun key : string => "data/" +:+ key +:+ ".yaml" in
  let text := fun (_ : string) (_ : json) => "text" in
  let parse := fun (_ _ : string) => Some JNull in
  let scan := fun (_ : gmap string string) (d : JsMap.t json) => d in
  let st := set file text "x" (JNum 1) (create ∅ None) in
  (get file parse "x" (restart scan (set file text "x" (JNum 2) (save 9 st)))).1
    = Some (JNum 1).
Proof.
  intros file text parse scan st.
  destruct (stale_snapshot_wins file text parse scan 9 "x" (JNum 1) (JNum 2) st)
    as (_ & _ & H).
  - simpl. apply NoDup_singleton.
  - reflexivity.
  - exact H.
Defined.

End ComposerAdapterFacts.
